(** * eensy: a tiny TF-IDF search index

    A shallow embedding of [eensy-index/eensy.py] and the properties of its
    tokenizer, ingestion, ranking and persistence writer.

    Conventions of the model.
    - A Python [str] is a [string] whose characters are read as the code
      points U+0000..U+00FF; on that range [str.lower], [str.split],
      [str.isalpha] and [str.isdigit] are written out below.  Module
      [Unicode] has the tokenizer for every text, over the tables of the
      Unicode database.
    - A Python [dict] / [defaultdict] is an association list in insertion
      order: the order is observable, both in [Index.search] (the order of
      [file_scores.items()]) and in [Index.save] (the order of
      [self.terms.items()]).
    - A [Document] object lives in [self.documents]; a reference to it (the
      [document] field of a [Loc], a key of [file_scores]) is its position
      in that list.
    - A Python [float] is read as a real number.  Module [Fl] has [idf]
      and [search] for every arithmetic; the ranking is stated there.
    - A method is a function from the index to the index it leaves and
      either a value or the exception raised.
    - Line 99 of the source, [bits.append(???)], leaves the argument of
      the call open; the call is modelled up to the attribute lookup,
      which is where it ends. *)

From Stdlib Require Import List Arith Lia Bool ZArith.
From Stdlib Require Import Ascii String DecimalString.
From Stdlib Require Import Reals Lra Permutation Sorted.
Import ListNotations.

Local Open Scope string_scope.
Local Open Scope list_scope.
Local Open Scope nat_scope.

(* ------------------------------------------------------------------ *)
(** ** Characters and strings *)

Module Text.

Definition code (c : ascii) : nat := nat_of_ascii c.

Definition between (lo hi n : nat) : bool := (lo <=? n) && (n <=? hi).

(** Characters that [str.lower] changes: A-Z and the upper-case letters
    of U+00C0..U+00DE (U+00D7 is the multiplication sign). *)
Definition isupper (c : ascii) : bool :=
  let n := code c in
  between 65 90 n || (between 192 222 n && negb (n =? 215)).

Definition lower_char (c : ascii) : ascii :=
  if isupper c then ascii_of_nat (code c + 32) else c.

(** [c.isspace()], the separators of [str.split()]. *)
Definition isspace (c : ascii) : bool :=
  let n := code c in
  between 9 13 n || between 28 32 n || (n =? 133) || (n =? 160).

(** [c.isalpha()] *)
Definition isalpha (c : ascii) : bool :=
  let n := code c in
  between 65 90 n || between 97 122 n
  || (n =? 170) || (n =? 181) || (n =? 186)
  || between 192 214 n || between 216 246 n || between 248 255 n.

(** [c.isdigit()] *)
Definition isdigit (c : ascii) : bool :=
  let n := code c in
  between 48 57 n || (n =? 178) || (n =? 179) || (n =? 185).

(** [s.lower()] *)
Fixpoint lower (s : string) : string :=
  match s with
  | EmptyString => EmptyString
  | String c s' => String (lower_char c) (lower s')
  end.

(** [any(p(c) for c in s)] *)
Fixpoint any (p : ascii -> bool) (s : string) : bool :=
  match s with
  | EmptyString => false
  | String c s' => p c || any p s'
  end.

(** The characters of a string. *)
Fixpoint chars (s : string) : list ascii :=
  match s with
  | EmptyString => []
  | String c s' => c :: chars s'
  end.

(** [s.split()]: the maximal runs of non-whitespace characters;
    [cur] is the run being read. *)
Fixpoint split_from (cur : string) (s : string) : list string :=
  match s with
  | EmptyString =>
      match cur with EmptyString => [] | _ => [cur] end
  | String c s' =>
      if isspace c then
        match cur with
        | EmptyString => split_from EmptyString s'
        | _ => cur :: split_from EmptyString s'
        end
      else split_from (cur ++ String c EmptyString) s'
  end.

Definition split (s : string) : list string := split_from EmptyString s.

(** [s.replace(old, new)] for a non-empty [old]: occurrences are found
    left to right and do not overlap.  [skip] counts the characters of
    the occurrence just replaced that are still to be dropped. *)
Fixpoint replace_from (old new : string) (skip : nat) (s : string) : string :=
  match s with
  | EmptyString => EmptyString
  | String c s' =>
      match skip with
      | S k => replace_from old new k s'
      | O =>
          if prefix old s
          then new ++ replace_from old new (String.length old - 1) s'
          else String c (replace_from old new 0 s')
      end
  end.

Definition replace (s old new : string) : string := replace_from old new 0 s.

(** [str(n)] for a non-negative integer. *)
Definition str_of_nat (n : nat) : string :=
  NilZero.string_of_uint (Nat.to_uint n).

(** [w in ws] for a collection of strings. *)
Definition mem (w : string) (ws : list string) : bool :=
  existsb (String.eqb w) ws.

End Text.

(* ------------------------------------------------------------------ *)
(** ** The tokenizer *)

Definition newline : ascii := ascii_of_nat 10.

Definition STOP_WORDS : list string :=
  Text.split
    ("the of in and to a an was for on with is by as at from that"
       ++ String newline "it were are has had also its this may be or").

(** [tokens(text)]: the generator is finite and is read once, in order, by
    each of its callers; it is the list of the words it yields. *)
Definition tokens (text : string) : list string :=
  let words := Text.split (Text.lower text) in
  filter
    (fun word =>
       Text.any (fun c => Text.isalpha c || Text.isdigit c) word
       && negb (Text.mem word STOP_WORDS))
    words.

(* ------------------------------------------------------------------ *)
(** ** Dictionaries in insertion order *)

Module Dict.
Section WithKey.
Context {K V : Type} (eqb : K -> K -> bool).

(** [d.get(k)] *)
Fixpoint get (k : K) (d : list (K * V)) : option V :=
  match d with
  | [] => None
  | (k', v) :: d' => if eqb k k' then Some v else get k d'
  end.

(** [d[k] = f(d[k])] on a [defaultdict] whose factory yields [dflt]: a
    present key keeps its place, a missing key is added at the end. *)
Fixpoint upsert (k : K) (dflt : V) (f : V -> V) (d : list (K * V))
  : list (K * V) :=
  match d with
  | [] => [(k, f dflt)]
  | (k', v) :: d' =>
      if eqb k k' then (k', f v) :: d' else (k', v) :: upsert k dflt f d'
  end.

Definition keys (d : list (K * V)) : list K := map fst d.
Definition values (d : list (K * V)) : list V := map snd d.

End WithKey.
End Dict.

(* ------------------------------------------------------------------ *)
(** ** The data model *)

Record Document : Type := mkDocument
  { id : nat; name : string; filename : string; max_tf : nat }.

(** [Document.__init__] *)
Definition Document_init (id : nat) (filename : string) : Document :=
  {| id := id;
     name := Text.replace filename ".txt" "";
     filename := filename;
     max_tf := 0 |}.

(** [Loc = namedtuple("Loc", "document offsets")]; [document] refers to a
    Document of the index. *)
Record Loc : Type := mkLoc { document : nat; offsets : list nat }.

(** [Result = namedtuple("Result", "document score")] *)
Record Result : Type := mkResult { result_document : nat; score : R }.

Record Index : Type := mkIndex
  { documents : list Document; terms : list (string * list Loc) }.

(** The index before any document is added ([Index.__init__] on a
    directory without files). *)
Definition empty_index : Index := {| documents := []; terms := [] |}.

(* ------------------------------------------------------------------ *)
(** ** Methods as state transformers that may raise *)

Inductive exn : Set :=
| ValueError          (* [max()] of an empty sequence *)
| ZeroDivisionError   (* [/] by zero *)
| TypeError           (* arithmetic on [None] *)
| AttributeError      (* a method that the object does not have *)
| NoSuchDocument.     (* a reference outside the store; no Python object
                         holds one, see [wf_index] *)

Inductive outcome (A : Type) : Type :=
| Ok (a : A)
| Raise (e : exn).
Arguments Ok {A} a.
Arguments Raise {A} e.

Definition M (A : Type) : Type := Index -> Index * outcome A.

Definition ret {A} (a : A) : M A := fun s => (s, Ok a).
Definition bind {A B} (c : M A) (k : A -> M B) : M B :=
  fun s =>
    match c s with
    | (s', Ok a) => k a s'
    | (s', Raise e) => (s', Raise e)
    end.
Definition gets {A} (f : Index -> A) : M A := fun s => (s, Ok (f s)).
Definition modify (f : Index -> Index) : M unit := fun s => (f s, Ok tt).
Definition lift {A} (o : outcome A) : M A := fun s => (s, o).

Notation "x <- c ;; k" := (bind c (fun x => k))
  (at level 61, c at next level, right associativity).
Notation "c ;;; k" := (bind c (fun _ => k))
  (at level 61, right associativity).

(** [for a in l: b = f(b, a)] *)
Fixpoint foldM {A B} (f : B -> A -> M B) (l : list A) (b : B) : M B :=
  match l with
  | [] => ret b
  | a :: l' => b' <- f b a ;; foldM f l' b'
  end.

(** [for a in l: f(a)] *)
Fixpoint forM_ {A} (f : A -> M unit) (l : list A) : M unit :=
  match l with
  | [] => ret tt
  | a :: l' => f a ;;; forM_ f l'
  end.

(** A computation that leaves the index as it found it. *)
Definition reads {A} (c : M A) : Prop := forall s, fst (c s) = s.

(** [enumerate(l)] *)
Definition enumerate {A} (l : list A) : list (nat * A) :=
  combine (seq 0 (List.length l)) l.

(** [max(l)] *)
Definition py_max (l : list nat) : outcome nat :=
  match l with
  | [] => Raise ValueError
  | x :: l' => Ok (fold_left Nat.max l' x)
  end.

(** [a / b] on two integers (true division). *)
Definition int_div (a b : nat) : outcome R :=
  if b =? 0 then Raise ZeroDivisionError else Ok (INR a / INR b)%R.

(** [doc.max_tf = m] for the Document at position [i] of the store. *)
Fixpoint store_max_tf (i m : nat) (docs : list Document) : list Document :=
  match docs, i with
  | [], _ => []
  | d :: ds, O =>
      {| id := id d; name := name d; filename := filename d; max_tf := m |}
        :: ds
  | d :: ds, S i' => d :: store_max_tf i' m ds
  end.

(** [locs_in_file[word].offsets.append(i)], with the factory
    [lambda: Loc(doc, [])]. *)
Definition note_offset (doc : nat) (locs_in_file : list (string * Loc))
  (iw : nat * string) : list (string * Loc) :=
  let (i, word) := iw in
  Dict.upsert String.eqb word (mkLoc doc [])
    (fun loc => mkLoc (document loc) (offsets loc ++ [i])) locs_in_file.

(** The first loop of [add_doc]. *)
Definition locs_of (doc : nat) (ws : list string) : list (string * Loc) :=
  fold_left (note_offset doc) (enumerate ws) [].

(** [self.terms[word].append(locs)] *)
Definition terms_append (wl : string * Loc) : M unit :=
  modify (fun s =>
    {| documents := documents s;
       terms := Dict.upsert String.eqb (fst wl) []
                  (fun l => l ++ [snd wl]) (terms s) |}).

(** [Index.add_doc] *)
Definition add_doc (filename text : string) : M unit :=
  id <- gets (fun s => List.length (documents s)) ;;
  let doc := Document_init id filename in
  modify (fun s =>
    {| documents := documents s ++ [doc]; terms := terms s |}) ;;;
  let locs_in_file := locs_of id (tokens text) in
  m <- lift (py_max (map (fun loc => List.length (offsets loc))
                         (Dict.values locs_in_file))) ;;
  modify (fun s =>
    {| documents := store_max_tf id m (documents s); terms := terms s |}) ;;;
  forM_ terms_append locs_in_file.

(** [Index.lookup]: [dict.get] never inserts the key. *)
Definition lookup (term : string) : M (list Loc) :=
  gets (fun s =>
    match Dict.get String.eqb term (terms s) with
    | Some locs => locs
    | None => []
    end).

(** The truth value of a list. *)
Definition truthy {A} (l : list A) : bool :=
  match l with [] => false | _ => true end.

(** [Index.idf].  When the division is reached [len(locs)] is positive, so
    [df] and [1/df] are positive and neither [1/df] nor [math.log]
    raises. *)
Definition idf (term : string) : M (option R) :=
  locs <- lookup term ;;
  if truthy locs then
    n <- gets (fun s => List.length (documents s)) ;;
    df <- lift (int_div (List.length locs) n) ;;
    ret (Some (ln (1 / df)))
  else ret None.

(** [loc.document.max_tf] *)
Definition max_tf_of (doc : nat) : M nat :=
  fun s =>
    match nth_error (documents s) doc with
    | Some d => (s, Ok (max_tf d))
    | None => (s, Raise NoSuchDocument)
    end.

(** [tf * idf], where [idf] may be [None]. *)
Definition times (tf : R) (idf : option R) : outcome R :=
  match idf with
  | Some v => Ok (tf * v)%R
  | None => Raise TypeError
  end.

(** [100 * len(loc.offsets) / loc.document.max_tf] *)
Definition tf (loc : Loc) : M R :=
  m <- max_tf_of (document loc) ;;
  lift (int_div (100 * List.length (offsets loc)) m).

(** The body of the inner loop of [search]. *)
Definition score_loc (idf_ : option R) (file_scores : list (nat * R))
  (loc : Loc) : M (list (nat * R)) :=
  tf_ <- tf loc ;;
  x <- lift (times tf_ idf_) ;;
  ret (Dict.upsert Nat.eqb (document loc) 0%R (fun s => (s + x)%R)
         file_scores).

(** The body of the outer loop of [search]. *)
Definition score_word (file_scores : list (nat * R)) (word : string)
  : M (list (nat * R)) :=
  locs <- lookup word ;;
  if truthy locs then
    idf_ <- idf word ;;
    foldM (score_loc idf_) locs file_scores
  else ret file_scores.

(** [results.sort(key=lambda pair: pair.score, reverse=True)]: the sort is
    stable, also under [reverse=True]; [x] is placed before the first
    result whose score is not greater than its own. *)
Fixpoint insert_desc (x : Result) (l : list Result) : list Result :=
  match l with
  | [] => [x]
  | y :: l' =>
      if Rlt_dec (score x) (score y) then y :: insert_desc x l' else x :: l
  end.

Definition sort_desc (l : list Result) : list Result :=
  fold_right insert_desc [] l.

(** [a] may stand before [b] in a list sorted by descending score. *)
Definition ge_score (a b : Result) : Prop := (score b <= score a)%R.

(** [l[:limit]] *)
Definition slice_to {A} (l : list A) (limit : Z) : list A :=
  if (0 <=? limit)%Z then firstn (Z.to_nat limit) l
  else firstn (List.length l - Z.to_nat (- limit)) l.

(** [Index.search] *)
Definition search (query : string) (limit : Z) : M (list Result) :=
  file_scores <- foldM score_word (tokens query) [] ;;
  let results := map (fun ds => mkResult (fst ds) (snd ds)) file_scores in
  ret (slice_to (sort_desc results) limit).

(* ------------------------------------------------------------------ *)
(** ** The persistence writer *)

(** ["{},{},{}".format(a, b, n)] *)
Definition format3 (a b : string) (n : nat) : string :=
  a ++ "," ++ b ++ "," ++ Text.str_of_nat n.

(** What the loop of lines 90-91 writes to [documents.txt]. *)
Definition documents_txt (docs : list Document) : string :=
  String.concat ""
    (map (fun doc => format3 (name doc) (filename doc) (max_tf doc)) docs).

(** [word.encode('utf-8')] on U+0000..U+00FF. *)
Definition utf8_char (c : ascii) : list ascii :=
  let n := Text.code c in
  if n <? 128 then [c]
  else [ascii_of_nat (192 + n / 64); ascii_of_nat (128 + n mod 64)].

Definition utf8 (s : string) : list ascii :=
  flat_map utf8_char (Text.chars s).

(** The loop of lines 96-102 over [self.terms.items()]: the directory, the
    bytes written to [index.dat] and how the loop ends.  [bits] is a
    [bytes] object and has no [append]: for a term with a posting the
    attribute lookup [bits.append] raises [AttributeError] before the
    argument of the call, which the source leaves open, is evaluated; the
    bits of that term are not written. *)
Fixpoint write_terms (bytes_written : nat) (items : list (string * list Loc))
  : list (string * nat * nat) * list ascii * outcome unit :=
  match items with
  | [] => ([], [], Ok tt)
  | (word, locs) :: rest =>
      let bits := utf8 word ++ [newline] in
      match locs with
      | _ :: _ => ([], [], Raise AttributeError)
      | [] =>
          let '(directory, dat, end_) :=
            write_terms (bytes_written + List.length bits) rest in
          ((word, bytes_written, List.length bits) :: directory,
           bits ++ dat, end_)
      end
  end.

(** What the loop of lines 105-106 writes to [directory.txt]. *)
Definition directory_txt (directory : list (string * nat * nat)) : string :=
  String.concat ""
    (map (fun e => format3 (fst (fst e))
                     (Text.str_of_nat (snd (fst e))) (snd e))
         directory).

(** The three files of the index directory; [None] for a file that was
    not opened. *)
Record Saved : Type := mkSaved
  { documents_file : option string;
    index_file : option (list ascii);
    directory_file : option string }.

(** [Index.save]: the files it leaves and how it ends.  It reads the
    index only.  A file opened in a [with] block keeps what was written
    to it when the block is left by an exception. *)
Definition save (idx : Index) : Saved * outcome unit :=
  let documents_ := documents_txt (documents idx) in
  let '(directory, dat, end_) := write_terms 0 (terms idx) in
  match end_ with
  | Ok _ =>
      ({| documents_file := Some documents_;
          index_file := Some dat;
          directory_file := Some (directory_txt directory) |}, Ok tt)
  | Raise e =>
      ({| documents_file := Some documents_;
          index_file := Some dat;
          directory_file := None |}, Raise e)
  end.

(* ------------------------------------------------------------------ *)
(** ** Indexes that the code can build *)

(** The index after [add_doc] was called on each [(filename, text)] of
    [files] in turn, starting from the empty index.  A call that raised is
    included: its caller may catch the exception and keep the index. *)
Definition build (files : list (string * string)) : Index :=
  fold_left (fun idx ft => fst (add_doc (fst ft) (snd ft) idx)) files
    empty_index.

(** The postings of a term, as [lookup] reads them. *)
Definition postings (idx : Index) (term : string) : list Loc :=
  match Dict.get String.eqb term (terms idx) with
  | Some locs => locs
  | None => []
  end.

(** Every posting refers to a stored document, is non-empty and is no
    longer than that document's [max_tf]. *)
Definition wf_loc (idx : Index) (loc : Loc) : Prop :=
  exists d, nth_error (documents idx) (document loc) = Some d
            /\ 1 <= List.length (offsets loc) <= max_tf d.

Definition wf_index (idx : Index) : Prop :=
  forall term, Forall (wf_loc idx) (postings idx term).

(* ------------------------------------------------------------------ *)
(** ** Reference functions used in the statements *)

(** The positions [k, k+1, ...] at which [w] stands in [ws]. *)
Fixpoint positions (w : string) (k : nat) (ws : list string) : list nat :=
  match ws with
  | [] => []
  | x :: ws' =>
      if String.eqb w x then k :: positions w (S k) ws'
      else positions w (S k) ws'
  end.

(** The number of times [w] stands in [ws]. *)
Definition occurrences (w : string) (ws : list string) : nat :=
  count_occ string_dec ws w.

(** The posting that document number [i] with content [text] has for [w],
    if any. *)
Definition posting_of (w : string) (i : nat) (text : string) : list Loc :=
  match positions w 0 (tokens text) with
  | [] => []
  | ps => [mkLoc i ps]
  end.

Fixpoint postings_from (w : string) (i : nat) (files : list (string * string))
  : list Loc :=
  match files with
  | [] => []
  | ft :: files' => posting_of w i (snd ft) ++ postings_from w (S i) files'
  end.

(** The value a score dictionary holds for a document, [0] when absent. *)
Definition score_in (file_scores : list (nat * R)) (d : nat) : R :=
  match Dict.get Nat.eqb d file_scores with
  | Some v => v
  | None => 0%R
  end.

(** [tf] and [idf] as numbers. *)
Definition tf_val (idx : Index) (loc : Loc) : R :=
  match nth_error (documents idx) (document loc) with
  | Some d => (INR (100 * List.length (offsets loc)) / INR (max_tf d))%R
  | None => 0%R
  end.

Definition idf_val (idx : Index) (term : string) : R :=
  ln (1 / (INR (List.length (postings idx term))
           / INR (List.length (documents idx)))).

(** The loops of [search] without the exceptions. *)
Definition add_loc (idx : Index) (word : string) (fs : list (nat * R))
  (loc : Loc) : list (nat * R) :=
  Dict.upsert Nat.eqb (document loc) 0%R
    (fun s => (s + tf_val idx loc * idf_val idx word)%R) fs.

Definition add_word (idx : Index) (fs : list (nat * R)) (word : string)
  : list (nat * R) :=
  fold_left (add_loc idx word) (postings idx word) fs.

Definition file_scores_of (idx : Index) (ws : list string) : list (nat * R) :=
  fold_left (add_word idx) ws [].

(** All matches of a query in rank order, before [limit] applies. *)
Definition ranked (idx : Index) (query : string) : list Result :=
  sort_desc (map (fun ds => mkResult (fst ds) (snd ds))
                 (file_scores_of idx (tokens query))).

(** The sum of a list of numbers. *)
Definition Rsum (l : list R) : R := fold_right Rplus 0%R l.

(** What one occurrence of [word] in a query adds to the score of
    document [d]: [tf * idf] for each posting of [word] in [d]. *)
Definition gain (idx : Index) (d : nat) (word : string) : R :=
  Rsum (map (fun loc => (tf_val idx loc * idf_val idx word)%R)
            (filter (fun loc => document loc =? d) (postings idx word))).

(** The sum of the gains of the words of [ws], one per occurrence. *)
Definition total_gain (idx : Index) (d : nat) (ws : list string) : R :=
  Rsum (map (gain idx d) ws).

(** One step of [first_seen]. *)
Definition see (seen : list nat) (d : nat) : list nat :=
  if existsb (Nat.eqb d) seen then seen else seen ++ [d].

(** The documents of [ds] in the order in which each first appears. *)
Definition first_seen (ds : list nat) : list nat := fold_left see ds [].

(** The documents that the loops of [search] visit, in that order. *)
Definition visited (idx : Index) (ws : list string) : list nat :=
  flat_map (fun w => map document (postings idx w)) ws.

(** The results with a given score, in list order. *)
Definition with_score (s : R) (l : list Result) : list Result :=
  filter (fun r => if Req_dec_T (score r) s then true else false) l.

(** The second loop of [add_doc] on the term dictionary. *)
Definition append_all (locs : list (string * Loc))
  (t : list (string * list Loc)) : list (string * list Loc) :=
  fold_left
    (fun t wl => Dict.upsert String.eqb (fst wl) [] (fun l => l ++ [snd wl]) t)
    locs t.

(** The index that [add_doc] leaves, whether it returns or raises. *)
Definition added (filename text : string) (idx : Index) : Index :=
  let i := List.length (documents idx) in
  let locs := locs_of i (tokens text) in
  match py_max (map (fun loc => List.length (offsets loc)) (Dict.values locs)) with
  | Ok m =>
      {| documents :=
           documents idx
           ++ [{| id := i; name := Text.replace filename ".txt" "";
                  filename := filename; max_tf := m |}];
         terms := append_all locs (terms idx) |}
  | Raise _ =>
      {| documents := documents idx ++ [Document_init i filename];
         terms := terms idx |}
  end.

(** The highest number of occurrences of a single word of [ws], [0] for
    no word. *)
Definition max_occurrences (ws : list string) : nat :=
  list_max (map (fun w => occurrences w ws) ws).

(** The Document that [add_doc] leaves for file number [i]. *)
Definition document_of (i : nat) (ft : string * string) : Document :=
  {| id := i;
     name := Text.replace (fst ft) ".txt" "";
     filename := fst ft;
     max_tf := max_occurrences (tokens (snd ft)) |}.

Fixpoint documents_from (i : nat) (files : list (string * string))
  : list Document :=
  match files with
  | [] => []
  | ft :: files' => document_of i ft :: documents_from (S i) files'
  end.


(* ------------------------------------------------------------------ *)
(** ** Example corpora *)

Definition two_files : list (string * string) :=
  [("a.txt", "cat sat cat"); ("b.txt", "the dog")].


Definition one_file : list (string * string) := [("a.txt", "cat")].

(** The corpus of the scenario of the specification. *)
Definition scenario_files : list (string * string) :=
  [("doc0", "the cat sat on the mat"); ("doc1", "the dog sat on a log")].

(* ------------------------------------------------------------------ *)
(** ** The constructor *)

(** [Index.__init__] on a directory whose listing is [files]: the names
    that [os.listdir] returns, in its order, each with the text read from
    the file.  The loop ends at the first [add_doc] that raises. *)
Definition Index_init (files : list (string * string)) : Index * outcome unit :=
  forM_ (fun ft => add_doc (fst ft) (snd ft)) files empty_index.

(* ------------------------------------------------------------------ *)
(** ** More reference functions *)

(** The text of a file yields a token. *)
Definition has_tokens (ft : string * string) : bool :=
  truthy (tokens (snd ft)).

(** The files up to and including the first one without a token. *)
Fixpoint until_empty (files : list (string * string))
  : list (string * string) :=
  match files with
  | [] => []
  | ft :: files' =>
      if has_tokens ft then ft :: until_empty files' else [ft]
  end.

(** The words of [ws] in the order in which each first appears. *)
Definition see_word (seen : list string) (w : string) : list string :=
  if Text.mem w seen then seen else seen ++ [w].

Definition first_words (ws : list string) : list string :=
  fold_left see_word ws [].

(** [math.log(1/(df/n))] for [df] postings among [n] documents. *)
Definition idf_number (df n : nat) : R := ln (1 / (INR df / INR n)).


(* ------------------------------------------------------------------ *)
(** ** Search in the arithmetic of the program *)

(** [idf] and [search] compute with Python floats.  Which list [search]
    returns depends on how the float operations round, so for the ranking
    the operations are a parameter: [idf], the loops of [search], the sort
    and the slice are written once for every arithmetic.  [search] above
    is the instance [Fl.real]. *)
Module Fl.

Record Arith : Type := mkArith
  { num : Type;                 (* the float values *)
    zero : num;                 (* [float()], the default of [file_scores] *)
    add : num -> num -> num;    (* [x + y] *)
    mul : num -> num -> num;    (* [x * y] *)
    quot : nat -> nat -> num;   (* [a / b] on two integers, [b] not 0 *)
    inv : num -> num;           (* [1 / x] *)
    log : num -> num;           (* [math.log(x)] *)
    lt : num -> num -> bool }.  (* [x < y], all that the sort uses *)


Section WithArith.
Variable A : Arith.

(** [Result = namedtuple("Result", "document score")] *)
Record Result : Type := mkResult { result_document : nat; score : num A }.

(** [a / b] on two integers (true division). *)
Definition int_div (a b : nat) : outcome (num A) :=
  if b =? 0 then Raise ZeroDivisionError else Ok (quot A a b).

(** [Index.idf].  When the division is reached [len(locs)] is positive,
    so [df] and [1/df] are positive and neither [1/df] nor [math.log]
    raises. *)
Definition idf (term : string) : M (option (num A)) :=
  locs <- lookup term ;;
  if truthy locs then
    n <- gets (fun s => List.length (documents s)) ;;
    df <- lift (int_div (List.length locs) n) ;;
    ret (Some (log A (inv A df)))
  else ret None.

(** [tf * idf], where [idf] may be [None]. *)
Definition times (tf : num A) (idf : option (num A)) : outcome (num A) :=
  match idf with
  | Some v => Ok (mul A tf v)
  | None => Raise TypeError
  end.

(** [100 * len(loc.offsets) / loc.document.max_tf] *)
Definition tf (loc : Loc) : M (num A) :=
  m <- max_tf_of (document loc) ;;
  lift (int_div (100 * List.length (offsets loc)) m).

(** The body of the inner loop of [search]. *)
Definition score_loc (idf_ : option (num A)) (file_scores : list (nat * num A))
  (loc : Loc) : M (list (nat * num A)) :=
  tf_ <- tf loc ;;
  x <- lift (times tf_ idf_) ;;
  ret (Dict.upsert Nat.eqb (document loc) (zero A) (fun s => add A s x)
         file_scores).

(** The body of the outer loop of [search]. *)
Definition score_word (file_scores : list (nat * num A)) (word : string)
  : M (list (nat * num A)) :=
  locs <- lookup word ;;
  if truthy locs then
    idf_ <- idf word ;;
    foldM (score_loc idf_) locs file_scores
  else ret file_scores.

(** [results.sort(key=lambda pair: pair.score, reverse=True)]: stable,
    also under [reverse=True]; [x] is placed before the first result
    whose score is not greater than its own. *)
Fixpoint insert_desc (x : Result) (l : list Result) : list Result :=
  match l with
  | [] => [x]
  | y :: l' =>
      if lt A (score x) (score y) then y :: insert_desc x l' else x :: l
  end.

Definition sort_desc (l : list Result) : list Result :=
  fold_right insert_desc [] l.

(** [Index.search] *)
Definition search (query : string) (limit : Z) : M (list Result) :=
  file_scores <- foldM score_word (tokens query) [] ;;
  let results := map (fun ds => mkResult (fst ds) (snd ds)) file_scores in
  ret (slice_to (sort_desc results) limit).

(** *** Reference functions *)

(** [tf] and [idf] as values. *)
Definition tf_val (idx : Index) (loc : Loc) : num A :=
  match nth_error (documents idx) (document loc) with
  | Some d => quot A (100 * List.length (offsets loc)) (max_tf d)
  | None => zero A
  end.

Definition idf_val (idx : Index) (term : string) : num A :=
  log A (inv A (quot A (List.length (postings idx term))
                         (List.length (documents idx)))).

(** The loops of [search] without the exceptions. *)
Definition add_loc (idx : Index) (word : string) (fs : list (nat * num A))
  (loc : Loc) : list (nat * num A) :=
  Dict.upsert Nat.eqb (document loc) (zero A)
    (fun s => add A s (mul A (tf_val idx loc) (idf_val idx word))) fs.

Definition add_word (idx : Index) (fs : list (nat * num A)) (word : string)
  : list (nat * num A) :=
  fold_left (add_loc idx word) (postings idx word) fs.

Definition file_scores_of (idx : Index) (ws : list string)
  : list (nat * num A) :=
  fold_left (add_word idx) ws [].

(** All matches of a query in rank order, before [limit] applies. *)
Definition ranked (idx : Index) (query : string) : list Result :=
  sort_desc (map (fun ds => mkResult (fst ds) (snd ds))
                 (file_scores_of idx (tokens query))).

(** What one occurrence of [word] in the query adds to the score of
    document [d]: [tf * idf] for each posting of [word] in [d]. *)
Definition addend (idx : Index) (d : nat) (word : string) : list (num A) :=
  map (fun loc => mul A (tf_val idx loc) (idf_val idx word))
      (filter (fun loc => document loc =? d) (postings idx word)).

(** The additions to the score of [d], in the order of the loops, each
    with the query word it stems from. *)
Definition contributions (idx : Index) (d : nat) (ws : list string)
  : list (string * num A) :=
  flat_map (fun w => map (pair w) (addend idx d w)) ws.

(** The additions carried out, left to right, from [float()]. *)
Definition total (cs : list (string * num A)) : num A :=
  fold_left (fun acc c => add A acc (snd c)) cs (zero A).

(** The value that a score dictionary holds for a document, [float()]
    when absent. *)
Definition value (fs : list (nat * num A)) (d : nat) : num A :=
  match Dict.get Nat.eqb d fs with
  | Some v => v
  | None => zero A
  end.




End WithArith.

(** The arithmetic of the real numbers. *)
Definition real : Arith :=
  {| num := R; zero := 0%R; add := Rplus; mul := Rmult;
     quot := fun a b => (INR a / INR b)%R;
     inv := fun x => (1 / x)%R;
     log := ln;
     lt := fun x y => if Rlt_dec x y then true else false |}.

End Fl.


(** A result of [search] as a result in the arithmetic of the reals. *)
Definition to_fl (r : Result) : Fl.Result Fl.real :=
  Fl.mkResult Fl.real (result_document r) (score r).


(* ------------------------------------------------------------------ *)
(** ** The tokenizer on Unicode text *)

(** A Python [str] holds any code point, and [str.lower], [str.split],
    [str.isalpha] and [str.isdigit] read the Unicode character database.
    Here the tokenizer is written for every text, with the tables of the
    database as a parameter. *)
Module Unicode.

(** A character is a code point. *)
Definition char : Type := N.

Record Tables : Type := mkTables
  { isspace : char -> bool;        (* [c.isspace()] *)
    isalpha : char -> bool;        (* [c.isalpha()] *)
    isdigit : char -> bool;        (* [c.isdigit()] *)
    isupper : char -> bool;        (* [c.isupper()] *)
    lower_full : char -> list char;
      (* the lower-case mapping of a character, one character or more *)
    final_sigma : list char -> list char -> bool }.
      (* whether a capital sigma after the first and before the second
         characters ends a word *)

Definition capital_sigma : char := 931%N.      (* U+03A3 *)
Definition final_small_sigma : char := 962%N.  (* U+03C2 *)
Definition small_sigma : char := 963%N.        (* U+03C3 *)

Section WithTables.
Variable T : Tables.

(** What [str.lower] puts for the character [c] that stands after
    [before] (nearest first) and before [after]: a capital sigma becomes
    one of the two small sigmas, by its place; every other character is
    replaced by its lower-case mapping. *)
Definition lower_at (before after : list char) (c : char) : list char :=
  if (c =? capital_sigma)%N
  then [if final_sigma T before after then final_small_sigma
        else small_sigma]
  else lower_full T c.

Fixpoint lower_from (before s : list char) : list char :=
  match s with
  | [] => []
  | c :: s' => lower_at before s' c ++ lower_from (c :: before) s'
  end.

(** [s.lower()] *)
Definition lower (s : list char) : list char := lower_from [] s.

(** [s.split()] *)
Fixpoint split_from (cur s : list char) : list (list char) :=
  match s with
  | [] => match cur with [] => [] | _ => [cur] end
  | c :: s' =>
      if isspace T c then
        match cur with
        | [] => split_from [] s'
        | _ => cur :: split_from [] s'
        end
      else split_from (cur ++ [c]) s'
  end.

Definition split (s : list char) : list (list char) := split_from [] s.

(** [w in ws] *)
Definition mem (w : list char) (ws : list (list char)) : bool :=
  existsb (fun x => if list_eq_dec N.eq_dec w x then true else false) ws.

(** The code points of a string of U+0000..U+00FF. *)
Definition codes (s : string) : list char := map N_of_ascii (Text.chars s).

Definition STOP_WORDS : list (list char) :=
  split
    (codes
       ("the of in and to a an was for on with is by as at from that"
          ++ String newline "it were are has had also its this may be or")).

(** [tokens(text)] *)
Definition tokens (text : list char) : list (list char) :=
  let words := split (lower text) in
  filter
    (fun word =>
       existsb (fun c => isalpha T c || isdigit T c) word
       && negb (mem word STOP_WORDS))
    words.

(** Lower-casing is idempotent on characters: what [str.lower] puts for
    a character is not changed by [str.lower] again. *)
Definition lower_stable : Prop :=
  forall before after c c',
    In c' (lower_at before after c) ->
    c' <> capital_sigma /\ lower_full T c' = [c'].

End WithTables.

(** The tables of Python on U+0000..U+00FF and on U+2102, the
    double-struck capital C, an upper-case letter without a lower-case
    form.  The other code points are left unclassified. *)
Definition double_struck_C : char := 8450%N.

Definition sample : Tables :=
  {| isspace := fun c =>
       (c <? 256)%N && Text.isspace (ascii_of_N c);
     isalpha := fun c =>
       ((c <? 256)%N && Text.isalpha (ascii_of_N c))
       || (c =? double_struck_C)%N;
     isdigit := fun c =>
       (c <? 256)%N && Text.isdigit (ascii_of_N c);
     isupper := fun c =>
       ((c <? 256)%N && Text.isupper (ascii_of_N c))
       || (c =? double_struck_C)%N;
     lower_full := fun c =>
       if (c <? 256)%N then [N_of_ascii (Text.lower_char (ascii_of_N c))]
       else [c];
     final_sigma := fun _ _ => false |}.

End Unicode.


(* ------------------------------------------------------------------ *)
(** * Properties *)

(** ** Strings *)

Lemma lower_char_not_upper c : Text.isupper (Text.lower_char c) = false.
Proof. destruct c as [[] [] [] [] [] [] [] []]; reflexivity. Qed.

Lemma lower_char_fixed c : Text.isupper c = false -> Text.lower_char c = c.
Proof. unfold Text.lower_char; intros ->; reflexivity. Qed.

Lemma chars_app s t : Text.chars (s ++ t) = Text.chars s ++ Text.chars t.
Proof. induction s; simpl; congruence. Qed.

Lemma chars_lower s c :
  In c (Text.chars (Text.lower s)) -> Text.isupper c = false.
Proof.
  induction s as [|a s IH]; simpl; [tauto|].
  intros [<-|H]; auto using lower_char_not_upper.
Qed.

Lemma lower_fixed s :
  (forall c, In c (Text.chars s) -> Text.isupper c = false) ->
  Text.lower s = s.
Proof.
  induction s as [|a s IH]; simpl; intros H; [reflexivity|].
  rewrite lower_char_fixed, IH; auto.
Qed.

Lemma any_exists p s :
  Text.any p s = true <-> exists c, In c (Text.chars s) /\ p c = true.
Proof.
  induction s as [|a s IH]; simpl.
  - split; [discriminate | intros (c & [] & _)].
  - rewrite orb_true_iff, IH; split.
    + intros [H|(c & H1 & H2)]; eauto.
    + intros (c & [<-|H1] & H2); eauto.
Qed.

Lemma mem_In w ws : Text.mem w ws = true <-> In w ws.
Proof.
  unfold Text.mem; rewrite existsb_exists; split.
  - intros (x & Hx & E); apply String.eqb_eq in E; subst; assumption.
  - intros H; exists w; split; [assumption | apply String.eqb_refl].
Qed.

(** Every character of a word of [split] comes from the text and is not a
    separator. *)
Lemma split_from_chars (P : ascii -> Prop) s :
  forall cur w,
    (forall c, In c (Text.chars cur) -> P c) ->
    (forall c, In c (Text.chars s) -> Text.isspace c = false -> P c) ->
    In w (Text.split_from cur s) ->
    forall c, In c (Text.chars w) -> P c.
Proof.
  induction s as [|a s IH]; simpl; intros cur w Hcur Hs Hw c Hc.
  - destruct cur; simpl in Hw; [tauto|].
    destruct Hw as [<-|[]]; auto.
  - destruct (Text.isspace a) eqn:Ea.
    + assert (Hrest : In w (Text.split_from "" s) -> P c).
      { intros H; eapply (IH "" w); eauto; simpl; tauto. }
      destruct cur; [auto|].
      destruct Hw as [<-|Hw]; auto.
    + apply (IH (cur ++ String a "")%string w); auto.
      intros x Hx; rewrite chars_app in Hx; apply in_app_or in Hx.
      destruct Hx as [Hx|[<-|[]]]; auto.
Qed.

Lemma split_chars (P : ascii -> Prop) s w :
  (forall c, In c (Text.chars s) -> Text.isspace c = false -> P c) ->
  In w (Text.split s) -> forall c, In c (Text.chars w) -> P c.
Proof.
  intros Hs Hw; eapply split_from_chars; eauto; simpl; tauto.
Qed.

Lemma tokens_in_split text w :
  In w (tokens text) ->
  In w (Text.split (Text.lower text))
  /\ Text.any (fun c => Text.isalpha c || Text.isdigit c) w = true
  /\ Text.mem w STOP_WORDS = false.
Proof.
  unfold tokens; rewrite filter_In, andb_true_iff, negb_true_iff; tauto.
Qed.

(** No token holds a separator, in particular no newline. *)
Lemma tokens_no_space text w c :
  In w (tokens text) -> In c (Text.chars w) -> Text.isspace c = false.
Proof.
  intros Hw; apply tokens_in_split in Hw; destruct Hw as (Hw & _).
  revert c; eapply split_chars; eauto.
Qed.

(** ** Dictionaries *)

Section DictFacts.
Context {K V : Type} (eqb : K -> K -> bool).
Hypothesis eqb_eq : forall a b, eqb a b = true <-> a = b.

Lemma eqb_refl' k : eqb k k = true.
Proof. apply eqb_eq; reflexivity. Qed.

Lemma eqb_neq k k' : k <> k' -> eqb k k' = false.
Proof.
  intros N; destruct (eqb k k') eqn:E; [|reflexivity].
  apply eqb_eq in E; contradiction.
Qed.

Lemma get_upsert k k' (d : V) f l :
  Dict.get eqb k (Dict.upsert eqb k' d f l) =
  if eqb k k'
  then Some (f (match Dict.get eqb k' l with Some v => v | None => d end))
  else Dict.get eqb k l.
Proof.
  induction l as [|[k0 v0] l IH]; simpl.
  - destruct (eqb k k'); reflexivity.
  - destruct (eqb k' k0) eqn:E0; simpl.
    + apply eqb_eq in E0; subst k0.
      destruct (eqb k k'); reflexivity.
    + rewrite IH. destruct (eqb k k') eqn:E; [|reflexivity].
      apply eqb_eq in E; subst k'. rewrite E0; reflexivity.
Qed.

Lemma keys_upsert k (d : V) f l :
  Dict.keys (Dict.upsert eqb k d f l) =
  match Dict.get eqb k l with
  | Some _ => Dict.keys l
  | None => Dict.keys l ++ [k]
  end.
Proof.
  unfold Dict.keys.
  induction l as [|[k0 v0] l IH]; simpl; [reflexivity|].
  destruct (eqb k k0); simpl; [reflexivity|].
  rewrite IH. destruct (Dict.get eqb k l); reflexivity.
Qed.

Lemma get_None k (l : list (K * V)) :
  Dict.get eqb k l = None <-> ~ In k (Dict.keys l).
Proof.
  induction l as [|[k0 v0] l IH]; simpl; [tauto|].
  destruct (eqb k k0) eqn:E.
  - apply eqb_eq in E; subst; split; [discriminate | tauto].
  - rewrite IH; split; [|tauto].
    intros H [->|H']; [rewrite eqb_refl' in E; discriminate | tauto].
Qed.

Lemma get_Some_In k v (l : list (K * V)) :
  Dict.get eqb k l = Some v -> In (k, v) l.
Proof.
  induction l as [|[k0 v0] l IH]; simpl; [discriminate|].
  destruct (eqb k k0) eqn:E; [|auto].
  apply eqb_eq in E; subst; intros [= ->]; auto.
Qed.

Lemma In_get k v (l : list (K * V)) :
  NoDup (Dict.keys l) -> In (k, v) l -> Dict.get eqb k l = Some v.
Proof.
  induction l as [|[k0 v0] l IH]; simpl; [tauto|].
  intros ND [[= -> ->]|H]; inversion ND; subst.
  - rewrite eqb_refl'; reflexivity.
  - rewrite eqb_neq; [auto|].
    intros ->; apply H2. change k0 with (fst (k0, v)); apply in_map, H.
Qed.

Lemma NoDup_keys_upsert k (d : V) f l :
  NoDup (Dict.keys l) -> NoDup (Dict.keys (Dict.upsert eqb k d f l)).
Proof.
  intros ND; rewrite keys_upsert.
  destruct (Dict.get eqb k l) eqn:E; [assumption|].
  apply get_None in E.
  apply NoDup_rev in ND. rewrite <- (rev_involutive (_ ++ _)).
  apply NoDup_rev. rewrite rev_app_distr; simpl.
  constructor; [rewrite <- in_rev; assumption | assumption].
Qed.

End DictFacts.


(** ** Ingestion *)

Lemma positions_length w ws : forall k,
  List.length (positions w k ws) = occurrences w ws.
Proof.
  unfold occurrences.
  induction ws as [|x ws IH]; simpl; intros k; [reflexivity|].
  destruct (String.eqb_spec w x) as [->|N].
  - destruct (string_dec x x); [simpl; rewrite IH; reflexivity | congruence].
  - destruct (string_dec x w); [congruence | apply IH].
Qed.

Lemma occurrences_pos w ws : In w ws <-> 1 <= occurrences w ws.
Proof. unfold occurrences; apply count_occ_In. Qed.

Lemma positions_nil w k ws : positions w k ws = [] <-> ~ In w ws.
Proof.
  rewrite occurrences_pos, <- (positions_length w ws k).
  destruct (positions w k ws); simpl; split; intros; try lia; try discriminate.
  reflexivity.
Qed.

Lemma get_fold_note doc w ws : forall k acc,
  Dict.get String.eqb w
    (fold_left (note_offset doc) (combine (seq k (List.length ws)) ws) acc) =
  match Dict.get String.eqb w acc with
  | Some loc => Some (mkLoc (document loc) (offsets loc ++ positions w k ws))
  | None =>
      match positions w k ws with
      | [] => None
      | ps => Some (mkLoc doc ps)
      end
  end.
Proof.
  induction ws as [|x ws IH]; simpl; intros k acc.
  - destruct (Dict.get String.eqb w acc) as [[d o]|]; simpl;
      [rewrite app_nil_r|]; reflexivity.
  - rewrite IH, (get_upsert String.eqb String.eqb_eq).
    destruct (String.eqb_spec w x) as [->|N].
    + destruct (Dict.get String.eqb x acc) as [[d o]|]; simpl;
        [rewrite <- app_assoc|]; reflexivity.
    + reflexivity.
Qed.

Lemma get_locs_of doc w ws :
  Dict.get String.eqb w (locs_of doc ws) =
  match positions w 0 ws with
  | [] => None
  | ps => Some (mkLoc doc ps)
  end.
Proof. unfold locs_of, enumerate; rewrite get_fold_note; reflexivity. Qed.

Lemma NoDup_keys_locs_of doc ws : NoDup (Dict.keys (locs_of doc ws)).
Proof.
  unfold locs_of.
  assert (H : forall l acc, NoDup (Dict.keys acc) ->
             NoDup (Dict.keys (fold_left (note_offset doc) l acc))).
  { induction l as [|[i x] l IH]; simpl; intros acc ND; [assumption|].
    apply IH, (NoDup_keys_upsert String.eqb String.eqb_eq), ND. }
  apply H; constructor.
Qed.

(** Each entry of [locs_in_file] holds the positions of its word. *)
Lemma locs_of_entry doc ws w loc :
  In (w, loc) (locs_of doc ws) ->
  In w ws /\ loc = mkLoc doc (positions w 0 ws).
Proof.
  intros H.
  apply (In_get String.eqb String.eqb_eq) in H;
    [|apply NoDup_keys_locs_of].
  rewrite get_locs_of in H.
  destruct (positions w 0 ws) eqn:E; [discriminate|].
  injection H as <-. split; [|reflexivity].
  destruct (in_dec string_dec w ws) as [I|I]; [assumption|].
  apply (proj2 (positions_nil w 0 ws)) in I; congruence.
Qed.

Lemma locs_of_nil doc ws : locs_of doc ws = [] <-> ws = [].
Proof.
  split; [|intros ->; reflexivity].
  intros H; destruct ws as [|w ws]; [reflexivity|].
  pose proof (get_locs_of doc w (w :: ws)) as G.
  rewrite H in G; simpl in G. rewrite String.eqb_refl in G. discriminate.
Qed.

Lemma fold_max_ge l : forall x, x <= fold_left Nat.max l x.
Proof.
  induction l as [|y l IH]; simpl; intros x; [lia|].
  specialize (IH (Nat.max x y)); lia.
Qed.

Lemma fold_max_bound l : forall x y, In y l -> y <= fold_left Nat.max l x.
Proof.
  induction l as [|z l IH]; simpl; intros x y []; subst.
  - pose proof (fold_max_ge l (Nat.max x y)); lia.
  - auto.
Qed.

Lemma fold_max_in l : forall x,
  fold_left Nat.max l x = x \/ In (fold_left Nat.max l x) l.
Proof.
  induction l as [|z l IH]; simpl; intros x; [auto|].
  destruct (IH (Nat.max x z)) as [E|I]; [|auto].
  rewrite E. destruct (Nat.max_spec x z) as [[_ ->]|[_ ->]]; auto.
Qed.

Lemma py_max_spec l :
  match py_max l with
  | Ok m => In m l /\ forall x, In x l -> x <= m
  | Raise e => l = [] /\ e = ValueError
  end.
Proof.
  destruct l as [|x l]; simpl; [auto|]. split.
  - destruct (fold_max_in l x) as [->|I]; auto.
  - intros y [<-|I]; [apply fold_max_ge | apply fold_max_bound, I].
Qed.

Lemma store_max_tf_last docs d m :
  store_max_tf (List.length docs) m (docs ++ [d]) =
  docs ++ [{| id := id d; name := name d; filename := filename d;
              max_tf := m |}].
Proof. induction docs as [|x docs IH]; simpl; [|rewrite IH]; reflexivity. Qed.

Lemma forM_terms_append locs : forall s,
  forM_ terms_append locs s =
  ({| documents := documents s; terms := append_all locs (terms s) |}, Ok tt).
Proof.
  induction locs as [|wl locs IH]; intros [ds ts]; simpl; [reflexivity|].
  unfold bind, terms_append at 1, modify; simpl. rewrite IH; reflexivity.
Qed.

Lemma get_append_all w : forall locs t,
  NoDup (Dict.keys locs) ->
  Dict.get String.eqb w (append_all locs t) =
  match Dict.get String.eqb w locs with
  | Some loc =>
      Some (match Dict.get String.eqb w t with Some l => l | None => [] end
            ++ [loc])
  | None => Dict.get String.eqb w t
  end.
Proof.
  induction locs as [|[k v] locs IH]; simpl; intros t ND; [reflexivity|].
  inversion ND as [|? ? Hk ND']; subst.
  rewrite (IH _ ND'), (get_upsert String.eqb String.eqb_eq).
  destruct (String.eqb_spec w k) as [->|N]; [|reflexivity].
  apply (get_None String.eqb String.eqb_eq) in Hk. rewrite Hk; reflexivity.
Qed.

Lemma add_doc_eq filename text idx :
  add_doc filename text idx =
  (added filename text idx,
   match tokens text with [] => Raise ValueError | _ => Ok tt end).
Proof.
  unfold add_doc, added, bind, gets, modify, lift; simpl.
  pose proof (py_max_spec
    (map (fun loc => List.length (offsets loc))
       (Dict.values (locs_of (List.length (documents idx)) (tokens text)))))
    as P.
  destruct (py_max _) as [m|e].
  - rewrite forM_terms_append; simpl. rewrite store_max_tf_last; simpl.
    destruct (tokens text) eqn:E; [|reflexivity].
    destruct P as [[] _].
  - destruct P as [P ->]. apply map_eq_nil, map_eq_nil, locs_of_nil in P.
    rewrite P; reflexivity.
Qed.

Lemma occurrences_le_max w ws : occurrences w ws <= max_occurrences ws.
Proof.
  destruct (in_dec string_dec w ws) as [I|I].
  - unfold max_occurrences.
    pose proof (proj1 (list_max_le (map (fun w => occurrences w ws) ws) _)
                  (Nat.le_refl _)) as F.
    rewrite Forall_forall in F. apply F, in_map_iff; eauto.
  - unfold occurrences at 1. rewrite (proj1 (count_occ_not_In _ _ _) I); lia.
Qed.

Lemma list_max_in l : l <> [] -> In (list_max l) l.
Proof.
  induction l as [|x l IH]; [congruence|]. intros _; simpl.
  destruct l as [|y l'].
  - left; simpl; lia.
  - destruct (Nat.max_spec x (list_max (y :: l'))) as [[_ E]|[_ E]];
      rewrite E; [right; apply IH; discriminate | left; reflexivity].
Qed.

Lemma max_occurrences_attained ws :
  ws <> [] -> exists w, In w ws /\ occurrences w ws = max_occurrences ws.
Proof.
  intros N. unfold max_occurrences.
  assert (H : In (list_max (map (fun w => occurrences w ws) ws))
                (map (fun w => occurrences w ws) ws)).
  { apply list_max_in. destruct ws; [congruence | discriminate]. }
  apply in_map_iff in H. destruct H as (w & E & I); eauto.
Qed.

Lemma py_max_locs_of doc ws :
  py_max (map (fun loc => List.length (offsets loc))
            (Dict.values (locs_of doc ws))) =
  match ws with
  | [] => Raise ValueError
  | _ => Ok (max_occurrences ws)
  end.
Proof.
  pose proof (py_max_spec
    (map (fun loc => List.length (offsets loc))
       (Dict.values (locs_of doc ws)))) as P.
  destruct (py_max _) as [m|e].
  - destruct P as [I B].
    assert (N : ws <> []).
    { intros ->; destruct I. }
    destruct ws as [|w0 ws0] eqn:Ews; [congruence|]. rewrite <- Ews in *.
    f_equal. apply Nat.le_antisymm.
    + apply in_map_iff in I. destruct I as (loc & <- & I).
      apply in_map_iff in I. destruct I as ([w l] & E & I); simpl in E; subst l.
      apply locs_of_entry in I. destruct I as [_ ->]; simpl.
      rewrite positions_length. apply occurrences_le_max.
    + clear I. destruct (max_occurrences_attained ws N) as (w & I & <-).
      apply B. pose proof (get_locs_of doc w ws) as G.
      destruct (positions w 0 ws) as [|p ps] eqn:E.
      { apply positions_nil in E; contradiction. }
      apply (get_Some_In String.eqb String.eqb_eq) in G.
      apply in_map_iff. exists (mkLoc doc (p :: ps)); split.
      * change (List.length (p :: ps) = occurrences w ws).
        rewrite <- E, positions_length; reflexivity.
      * apply in_map_iff. exists (w, mkLoc doc (p :: ps)); auto.
  - destruct P as [P ->]. apply map_eq_nil, map_eq_nil, locs_of_nil in P.
    subst; reflexivity.
Qed.

Lemma documents_added filename text idx :
  documents (added filename text idx) =
  documents idx
  ++ [document_of (List.length (documents idx)) (filename, text)].
Proof.
  unfold added; rewrite py_max_locs_of.
  destruct (tokens text) eqn:E; unfold document_of, Document_init; simpl;
    rewrite E; reflexivity.
Qed.

Lemma postings_added filename text idx w :
  postings (added filename text idx) w =
  postings idx w ++ posting_of w (List.length (documents idx)) text.
Proof.
  unfold added, posting_of; rewrite py_max_locs_of.
  destruct (tokens text) eqn:E.
  - cbn [positions]. rewrite app_nil_r; reflexivity.
  - rewrite <- E. unfold postings at 1; cbn [terms].
    rewrite get_append_all by apply NoDup_keys_locs_of.
    rewrite get_locs_of. unfold postings.
    destruct (positions w 0 (tokens text)); [rewrite app_nil_r|]; reflexivity.
Qed.

Lemma fst_add_doc filename text idx :
  fst (add_doc filename text idx) = added filename text idx.
Proof. rewrite add_doc_eq; reflexivity. Qed.

Lemma documents_from_length i files :
  List.length (documents_from i files) = List.length files.
Proof. revert i; induction files; simpl; auto. Qed.

Lemma build_from files : forall idx,
  let idx' :=
    fold_left (fun idx ft => fst (add_doc (fst ft) (snd ft) idx)) files idx in
  documents idx' =
    documents idx ++ documents_from (List.length (documents idx)) files
  /\ forall w, postings idx' w =
       postings idx w ++ postings_from w (List.length (documents idx)) files.
Proof.
  induction files as [|[fn text] files IH]; simpl; intros idx.
  - split; intros; rewrite app_nil_r; reflexivity.
  - destruct (IH (fst (add_doc fn text idx))) as [D P].
    rewrite fst_add_doc in *. split.
    + rewrite D, documents_added, length_app, <- app_assoc; simpl.
      rewrite Nat.add_1_r; reflexivity.
    + intros w. rewrite P, postings_added, documents_added, length_app.
      rewrite <- app_assoc; simpl. rewrite Nat.add_1_r; reflexivity.
Qed.

(** The documents and the postings of a built index in closed form. *)
Lemma documents_build files : documents (build files) = documents_from 0 files.
Proof. apply (build_from files empty_index). Qed.

Lemma postings_build files w :
  postings (build files) w = postings_from w 0 files.
Proof. apply (build_from files empty_index). Qed.

Lemma nth_documents_from files : forall i j,
  nth_error (documents_from i files) j =
  option_map (document_of (i + j)) (nth_error files j).
Proof.
  induction files as [|ft files IH]; intros i [|j]; simpl; try reflexivity.
  - rewrite Nat.add_0_r; reflexivity.
  - rewrite IH, Nat.add_succ_r; reflexivity.
Qed.

Lemma In_postings_from w loc files : forall i,
  In loc (postings_from w i files) <->
  exists j ft, nth_error files j = Some ft
               /\ In w (tokens (snd ft))
               /\ loc = mkLoc (i + j) (positions w 0 (tokens (snd ft))).
Proof.
  induction files as [|ft files IH]; simpl; intros i.
  - split; [tauto | intros ([|j] & ft & H & _); discriminate].
  - rewrite in_app_iff, IH. unfold posting_of. split.
    + intros [H|(j & ft' & H1 & H2 & H3)].
      * exists 0, ft. rewrite Nat.add_0_r.
        destruct (positions w 0 (tokens (snd ft))) eqn:E; [destruct H|].
        destruct H as [<-|[]]. repeat split.
        destruct (in_dec string_dec w (tokens (snd ft))) as [I|I]; auto.
        apply (proj2 (positions_nil w 0 _)) in I; congruence.
      * exists (S j), ft'. rewrite Nat.add_succ_r; auto.
    + intros ([|j] & ft' & H1 & H2 & H3); simpl in H1.
      * injection H1 as <-. left. rewrite Nat.add_0_r in H3.
        destruct (positions w 0 (tokens (snd ft))) eqn:E; [|left; auto].
        apply positions_nil in E; contradiction.
      * right. exists j, ft'. rewrite Nat.add_succ_r in H3; auto.
Qed.

(** Every built index is well formed. *)
Lemma wf_build files : wf_index (build files).
Proof.
  intros w. rewrite postings_build. apply Forall_forall. intros loc H.
  apply In_postings_from in H. destruct H as (j & ft & N & I & ->).
  exists (document_of j ft). simpl. split.
  - rewrite documents_build, nth_documents_from, N; reflexivity.
  - rewrite positions_length. simpl. split.
    + apply occurrences_pos, I.
    + apply occurrences_le_max.
Qed.

(** C3.  When the text yields no token, [add_doc] raises [ValueError]
    (from [max] of an empty sequence) after the new Document, with
    [max_tf = 0], was appended to [documents]: the index is not left as it
    was. *)
Theorem add_doc_no_tokens filename text idx :
  tokens text = [] ->
  add_doc filename text idx =
    ({| documents :=
          documents idx
          ++ [Document_init (List.length (documents idx)) filename];
        terms := terms idx |},
     Raise ValueError)
  /\ fst (add_doc filename text idx) <> idx.
Proof.
  intros E.
  assert (A : add_doc filename text idx =
    ({| documents :=
          documents idx
          ++ [Document_init (List.length (documents idx)) filename];
        terms := terms idx |},
     Raise ValueError)).
  { rewrite add_doc_eq, E. unfold added.
    rewrite py_max_locs_of, E; reflexivity. }
  split; [exact A|].
  rewrite A; simpl. intros H.
  apply (f_equal (fun s => List.length (documents s))) in H; simpl in H.
  rewrite length_app in H; simpl in H; lia.
Qed.

Lemma add_doc_no_tokens_witness :
  tokens "the of  and" = []
  /\ add_doc "empty.txt" "the of  and" empty_index =
       ({| documents := [Document_init 0 "empty.txt"]; terms := [] |},
        Raise ValueError)
  /\ fst (add_doc "empty.txt" "the of  and" empty_index) <> empty_index.
Proof.
  split; [reflexivity|].
  exact (add_doc_no_tokens "empty.txt" "the of  and" empty_index eq_refl).
Defined.

(** ** Document names *)

Lemma prefix_head_neq c a s1 s2 :
  c <> a -> prefix (String c s1) (String a s2) = false.
Proof.
  intros N. simpl. destruct (ascii_dec c a); [contradiction | reflexivity].
Qed.

Lemma replace_from_keep old new c s :
  prefix old (String c s) = false ->
  Text.replace_from old new 0 (String c s)
  = String c (Text.replace_from old new 0 s).
Proof.
  intros H.
  change (Text.replace_from old new 0 (String c s))
    with (if prefix old (String c s)
          then (new ++ Text.replace_from old new (String.length old - 1) s)%string
          else String c (Text.replace_from old new 0 s)).
  rewrite H. reflexivity.
Qed.

(** A filename that ends in [.txt] and has no other dot loses exactly that
    suffix. *)
Lemma replace_trailing_txt base :
  (forall c, In c (Text.chars base) -> c <> "."%char) ->
  Text.replace (base ++ ".txt") ".txt" "" = base.
Proof.
  unfold Text.replace. induction base as [|a base IH]; intros H.
  - reflexivity.
  - change (String a base ++ ".txt")%string
      with (String a (base ++ ".txt")%string).
    rewrite replace_from_keep.
    + f_equal. apply IH. intros c I. apply H. right; exact I.
    + apply prefix_head_neq. intros E. apply (H a); [left; reflexivity|].
      symmetry; exact E.
Qed.

(** C8.  [Document.__init__] removes every occurrence of [.txt] from the
    filename, not only a trailing one: [notes.txt.bak] has no trailing
    [.txt] and is still changed, and [a.txt.b.txt] loses both. *)
Theorem document_name_replace :
  name (Document_init 0 "notes.txt") = "notes"
  /\ name (Document_init 0 "notes.txt.bak") = "notes.bak"
  /\ name (Document_init 0 "a.txt.b.txt") = "a.b".
Proof. repeat split. Qed.

(** ** The text files of [save] *)

Lemma uint_digits d c :
  In c (Text.chars (NilEmpty.string_of_uint d)) -> Text.isdigit c = true.
Proof.
  induction d; simpl; try tauto; intros [<-|H]; auto.
Qed.

Lemma str_of_nat_digits n c :
  In c (Text.chars (Text.str_of_nat n)) -> Text.isdigit c = true.
Proof.
  unfold Text.str_of_nat, NilZero.string_of_uint.
  destruct (Nat.to_uint n) eqn:E; try (rewrite <- E; apply uint_digits).
  simpl. intros [<-|[]]; reflexivity.
Qed.

Lemma chars_concat l :
  Text.chars (String.concat "" l) = flat_map Text.chars l.
Proof.
  induction l as [|x [|y l] IH]; simpl in *.
  - reflexivity.
  - rewrite app_nil_r; reflexivity.
  - rewrite chars_app, IH; reflexivity.
Qed.

(** A record holds the characters of its fields, commas and digits. *)
Lemma format3_chars a b n c :
  In c (Text.chars (format3 a b n)) ->
  In c (Text.chars a) \/ In c (Text.chars b)
  \/ c = ","%char \/ Text.isdigit c = true.
Proof.
  unfold format3. rewrite !chars_app, !in_app_iff. simpl.
  intros [H|[[<-|[]]|[H|[[<-|[]]|H]]]]; auto.
  right; right; right. eapply str_of_nat_digits; eauto.
Qed.

(** The writer puts no line terminator of its own into [documents.txt]
    nor into [directory.txt]. *)
Lemma documents_txt_chars docs c :
  In c (Text.chars (documents_txt docs)) ->
  c = ","%char \/ Text.isdigit c = true
  \/ exists d, In d docs
               /\ (In c (Text.chars (name d)) \/ In c (Text.chars (filename d))).
Proof.
  unfold documents_txt. rewrite chars_concat, in_flat_map.
  intros (r & I & H). apply in_map_iff in I. destruct I as (d & <- & I).
  apply format3_chars in H. destruct H as [H|[H|[H|H]]]; eauto 6.
Qed.

Lemma directory_txt_chars directory c :
  In c (Text.chars (directory_txt directory)) ->
  c = ","%char \/ Text.isdigit c = true
  \/ exists e, In e directory /\ In c (Text.chars (fst (fst e))).
Proof.
  unfold directory_txt. rewrite chars_concat, in_flat_map.
  intros (r & I & H). apply in_map_iff in I. destruct I as (e & <- & I).
  apply format3_chars in H. destruct H as [H|[H|[H|H]]]; eauto.
  right; left. eapply str_of_nat_digits; eauto.
Qed.

(** C7.  [save] writes the records of [documents.txt] one after the other
    without a line terminator, so that two documents give a single line;
    [directory.txt] is not written for an index that holds a posting (see
    [save_raises]), and its writer joins the records in the same way. *)
Theorem save_writes_no_line_breaks :
  let idx := build [("a.txt", "cat"); ("b.txt", "dog")] in
  List.length (documents idx) = 2
  /\ documents_file (fst (save idx)) = Some "a,a.txt,1b,b.txt,1"
  /\ ~ In newline (Text.chars "a,a.txt,1b,b.txt,1")
  /\ directory_file (fst (save idx)) = None
  /\ directory_txt [("cat", 0, 4); ("dog", 4, 4)] = "cat,0,4dog,4,4".
Proof.
  vm_compute. repeat split.
  intros H. repeat (destruct H as [H|H]; [discriminate|]). exact H.
Qed.

(** ** Term frequency *)

Lemma tf_eq idx loc d :
  nth_error (documents idx) (document loc) = Some d ->
  max_tf d <> 0 ->
  tf loc idx = (idx, Ok (tf_val idx loc)).
Proof.
  intros N Z. unfold tf, bind, max_tf_of, lift, int_div, tf_val.
  rewrite N. apply Nat.eqb_neq in Z. rewrite Z. reflexivity.
Qed.

Lemma ratio_range (n m : nat) :
  1 <= n <= m ->
  let v := (INR (100 * n) / INR m)%R in
  (0 < v <= 100)%R /\ (v = 100%R <-> n = m).
Proof.
  intros [Hn Hm] v.
  assert (A : (0 < INR n)%R) by (apply lt_0_INR; lia).
  assert (B : (INR n <= INR m)%R) by (apply le_INR; lia).
  assert (E : (v * INR m = 100 * INR n)%R).
  { unfold v. rewrite mult_INR.
    replace (INR 100) with 100%R by (rewrite INR_IZR_INZ; reflexivity).
    field; lra. }
  split; [split|split].
  - unfold v. apply Rdiv_lt_0_compat; [|lra].
    rewrite mult_INR. apply Rmult_lt_0_compat; [|assumption].
    apply lt_0_INR; lia.
  - nra.
  - intros H. apply INR_eq. nra.
  - intros <-. nra.
Qed.

(** C6.  For every document of a built index that holds the term [t]: the
    posting of [t] in that document lists one offset per occurrence, the
    document's [max_tf] is the highest number of occurrences of one of its
    terms, and [tf = 100 * occurrences / max_tf] lies in (0, 100], with
    [tf = 100] exactly when [t] occurs [max_tf] times. *)
Theorem tf_range files i filename text t :
  nth_error files i = Some (filename, text) ->
  In t (tokens text) ->
  let idx := build files in
  exists loc D v,
    In loc (postings idx t)
    /\ document loc = i
    /\ nth_error (documents idx) i = Some D
    /\ List.length (offsets loc) = occurrences t (tokens text)
    /\ max_tf D = max_occurrences (tokens text)
    /\ tf loc idx = (idx, Ok v)
    /\ v = (INR (100 * occurrences t (tokens text)) / INR (max_tf D))%R
    /\ (0 < v <= 100)%R
    /\ (v = 100%R <-> occurrences t (tokens text) = max_tf D).
Proof.
  intros N I idx.
  set (loc := mkLoc i (positions t 0 (tokens text))).
  set (D := document_of i (filename, text)).
  assert (HD : nth_error (documents idx) (document loc) = Some D).
  { unfold idx. rewrite documents_build, nth_documents_from; simpl.
    rewrite N; reflexivity. }
  assert (L : List.length (offsets loc) = occurrences t (tokens text)).
  { simpl. apply positions_length. }
  assert (R : 1 <= occurrences t (tokens text) <= max_tf D).
  { split; [apply occurrences_pos, I | apply occurrences_le_max]. }
  exists loc, D, (tf_val idx loc).
  split; [|split; [|split; [|split; [|split; [|split; [|split]]]]]].
  - unfold idx. rewrite postings_build. apply In_postings_from.
    exists i, (filename, text); auto.
  - reflexivity.
  - exact HD.
  - exact L.
  - reflexivity.
  - apply (tf_eq idx loc D HD). lia.
  - unfold tf_val. rewrite HD, L. reflexivity.
  - unfold tf_val. rewrite HD, L. apply (ratio_range _ _ R).
Qed.

Lemma tf_range_witness :
  (nth_error two_files 0 = Some ("a.txt", "cat sat cat")
   /\ In "sat" (tokens "cat sat cat"))
  /\ exists loc D v,
       In loc (postings (build two_files) "sat")
       /\ document loc = 0
       /\ nth_error (documents (build two_files)) 0 = Some D
       /\ List.length (offsets loc) = occurrences "sat" (tokens "cat sat cat")
       /\ max_tf D = max_occurrences (tokens "cat sat cat")
       /\ tf loc (build two_files) = (build two_files, Ok v)
       /\ v = (INR (100 * occurrences "sat" (tokens "cat sat cat"))
               / INR (max_tf D))%R
       /\ (0 < v <= 100)%R
       /\ (v = 100%R <-> occurrences "sat" (tokens "cat sat cat") = max_tf D).
Proof.
  assert (H1 : nth_error two_files 0 = Some ("a.txt", "cat sat cat"))
    by reflexivity.
  assert (H2 : In "sat" (tokens "cat sat cat")) by (vm_compute; tauto).
  split; [split; assumption|].
  exact (tf_range two_files 0 "a.txt" "cat sat cat" "sat" H1 H2).
Defined.

(** ** Search *)

Lemma reads_ret {A} (a : A) : reads (ret a).
Proof. intros s; reflexivity. Qed.

Lemma reads_lift {A} (o : outcome A) : reads (lift o).
Proof. intros s; reflexivity. Qed.

Lemma reads_gets {A} (f : Index -> A) : reads (gets f).
Proof. intros s; reflexivity. Qed.

Lemma reads_bind {A B} (c : M A) (k : A -> M B) :
  reads c -> (forall a, reads (k a)) -> reads (bind c k).
Proof.
  intros Hc Hk s. unfold bind. specialize (Hc s).
  destruct (c s) as [s' [a|e]]; simpl in Hc; subst s'; [apply Hk | reflexivity].
Qed.

Lemma reads_foldM {A B} (f : B -> A -> M B) l :
  (forall b a, reads (f b a)) -> forall b, reads (foldM f l b).
Proof.
  intros Hf. induction l as [|a l IH]; simpl; intros b.
  - apply reads_ret.
  - apply reads_bind; auto.
Qed.

Lemma reads_lookup term : reads (lookup term).
Proof. apply reads_gets. Qed.

Lemma reads_max_tf_of doc : reads (max_tf_of doc).
Proof.
  intros s. unfold max_tf_of. destruct (nth_error _ _); reflexivity.
Qed.

Lemma reads_idf term : reads (idf term).
Proof.
  apply reads_bind; [apply reads_lookup|]. intros locs.
  destruct (truthy locs); [|apply reads_ret].
  apply reads_bind; [apply reads_gets|]. intros n.
  apply reads_bind; [apply reads_lift|]. intros df. apply reads_ret.
Qed.

Lemma reads_tf loc : reads (tf loc).
Proof.
  apply reads_bind; [apply reads_max_tf_of|]. intros m. apply reads_lift.
Qed.

Lemma reads_score_loc v fs loc : reads (score_loc v fs loc).
Proof.
  apply reads_bind; [apply reads_tf|]. intros t.
  apply reads_bind; [apply reads_lift|]. intros x. apply reads_ret.
Qed.

Lemma reads_score_word fs word : reads (score_word fs word).
Proof.
  apply reads_bind; [apply reads_lookup|]. intros locs.
  destruct (truthy locs); [|apply reads_ret].
  apply reads_bind; [apply reads_idf|]. intros v.
  apply reads_foldM. intros; apply reads_score_loc.
Qed.

(** C9.  [search] leaves the index as it found it, whatever the index, the
    query and the limit, and whether it returns or raises: the document
    list and the term dictionary, keys included, are the same. *)
Theorem search_reads query limit idx :
  fst (search query limit idx) = idx
  /\ documents (fst (search query limit idx)) = documents idx
  /\ terms (fst (search query limit idx)) = terms idx
  /\ Dict.keys (terms (fst (search query limit idx))) = Dict.keys (terms idx).
Proof.
  assert (H : fst (search query limit idx) = idx).
  { apply reads_bind.
    - apply reads_foldM. intros; apply reads_score_word.
    - intros fs. apply reads_ret. }
  rewrite H; auto.
Qed.

Lemma lookup_eq term idx : lookup term idx = (idx, Ok (postings idx term)).
Proof. reflexivity. Qed.

Lemma wf_documents idx loc : wf_loc idx loc -> documents idx <> [].
Proof.
  intros (d & N & _) E. rewrite E in N.
  destruct (document loc); discriminate.
Qed.

Lemma idf_eq term idx :
  postings idx term <> [] -> documents idx <> [] ->
  idf term idx = (idx, Ok (Some (idf_val idx term))).
Proof.
  intros P D. unfold idf, bind. rewrite lookup_eq.
  unfold idf_val.
  destruct (postings idx term) eqn:E; [congruence|].
  unfold truthy, gets, lift, int_div, ret. cbv beta iota.
  destruct (documents idx); [congruence|]. reflexivity.
Qed.

Lemma score_loc_eq idx word fs loc :
  wf_loc idx loc ->
  score_loc (Some (idf_val idx word)) fs loc idx =
  (idx, Ok (add_loc idx word fs loc)).
Proof.
  intros (d & N & B). unfold score_loc, bind.
  rewrite (tf_eq idx loc d N) by lia. reflexivity.
Qed.

Lemma foldM_score_loc idx word locs : forall fs,
  Forall (wf_loc idx) locs ->
  foldM (score_loc (Some (idf_val idx word))) locs fs idx =
  (idx, Ok (fold_left (add_loc idx word) locs fs)).
Proof.
  induction locs as [|loc locs IH]; simpl; intros fs F; [reflexivity|].
  inversion F; subst. unfold bind. rewrite score_loc_eq by assumption.
  apply IH; assumption.
Qed.

Lemma score_word_eq idx fs word :
  wf_index idx ->
  score_word fs word idx = (idx, Ok (add_word idx fs word)).
Proof.
  intros W. unfold score_word, bind, add_word. rewrite lookup_eq.
  specialize (W word).
  destruct (postings idx word) as [|loc locs] eqn:E; [reflexivity|].
  unfold truthy. cbv beta iota.
  rewrite idf_eq.
  - apply foldM_score_loc; assumption.
  - rewrite E; discriminate.
  - inversion W; subst. eapply wf_documents; eauto.
Qed.

Lemma foldM_score_word idx ws : forall fs,
  wf_index idx ->
  foldM score_word ws fs idx = (idx, Ok (fold_left (add_word idx) ws fs)).
Proof.
  induction ws as [|w ws IH]; simpl; intros fs W; [reflexivity|].
  unfold bind. rewrite score_word_eq by assumption. apply IH, W.
Qed.

(** On a well-formed index [search] returns, and returns the ranked
    matches cut at [limit]. *)
Lemma search_eq idx query limit :
  wf_index idx ->
  search query limit idx = (idx, Ok (slice_to (ranked idx query) limit)).
Proof.
  intros W. unfold search, bind. rewrite foldM_score_word by assumption.
  reflexivity.
Qed.

(** *** The sort *)

Lemma insert_desc_perm x l : Permutation (insert_desc x l) (x :: l).
Proof.
  induction l as [|y l IH]; simpl; [reflexivity|].
  destruct (Rlt_dec (score x) (score y)); [|reflexivity].
  rewrite IH. apply perm_swap.
Qed.

Lemma sort_desc_perm l : Permutation (sort_desc l) l.
Proof.
  induction l as [|x l IH]; simpl; [reflexivity|].
  rewrite insert_desc_perm, IH; reflexivity.
Qed.

Lemma insert_desc_sorted x l :
  StronglySorted ge_score l -> StronglySorted ge_score (insert_desc x l).
Proof.
  induction 1 as [|y l S IH F]; simpl.
  - constructor; constructor.
  - destruct (Rlt_dec (score x) (score y)) as [L|L].
    + constructor; [assumption|].
      rewrite insert_desc_perm. constructor; [|assumption].
      unfold ge_score; lra.
    + assert (G : ge_score x y) by (unfold ge_score; lra).
      constructor; [constructor; assumption|].
      constructor; [assumption|].
      eapply Forall_impl; [|exact F]. unfold ge_score in *. intros; lra.
Qed.

Lemma sort_desc_sorted l : StronglySorted ge_score (sort_desc l).
Proof.
  induction l as [|x l IH]; simpl; [constructor | apply insert_desc_sorted, IH].
Qed.

Lemma with_score_insert s x l :
  with_score s (insert_desc x l) = with_score s (x :: l).
Proof.
  induction l as [|y l IH]; simpl; [reflexivity|].
  destruct (Rlt_dec (score x) (score y)) as [L|L]; [|reflexivity].
  simpl in *. rewrite IH.
  destruct (Req_dec_T (score x) s), (Req_dec_T (score y) s);
    try reflexivity. lra.
Qed.

(** The sort is stable: results with the same score keep their order. *)
Lemma with_score_sort s l : with_score s (sort_desc l) = with_score s l.
Proof.
  induction l as [|x l IH]; simpl; [reflexivity|].
  rewrite with_score_insert; simpl. rewrite IH; reflexivity.
Qed.

(** *** The slice *)

Lemma slice_to_nonneg {A} (l : list A) k :
  (0 <= k)%Z -> slice_to l k = firstn (Z.to_nat k) l.
Proof. intros H. unfold slice_to. apply Z.leb_le in H. rewrite H; reflexivity. Qed.

Lemma slice_to_neg {A} (l : list A) k :
  (k < 0)%Z ->
  slice_to l k = firstn (List.length l - Z.to_nat (- k)) l.
Proof. intros H. unfold slice_to. apply Z.leb_gt in H. rewrite H; reflexivity. Qed.

Lemma slice_to_prefix {A} (l : list A) k :
  exists rest, l = slice_to l k ++ rest.
Proof.
  unfold slice_to. destruct (0 <=? k)%Z;
    eexists; symmetry; apply firstn_skipn.
Qed.

Lemma slice_to_In {A} (l : list A) k x : In x (slice_to l k) -> In x l.
Proof.
  destruct (slice_to_prefix l k) as [rest E]. intros H.
  rewrite E. apply in_or_app; auto.
Qed.

(** *** The score dictionary *)

Lemma existsb_eqb_In d l : existsb (Nat.eqb d) l = true <-> In d l.
Proof.
  rewrite existsb_exists. split.
  - intros (x & I & E). apply Nat.eqb_eq in E. subst; assumption.
  - intros I. exists d. split; [assumption | apply Nat.eqb_refl].
Qed.

Lemma keys_add_loc idx word fs loc :
  Dict.keys (add_loc idx word fs loc) = see (Dict.keys fs) (document loc).
Proof.
  unfold add_loc, see. rewrite (keys_upsert Nat.eqb).
  destruct (Dict.get Nat.eqb (document loc) fs) eqn:G.
  - assert (I : In (document loc) (Dict.keys fs)).
    { apply (get_Some_In Nat.eqb Nat.eqb_eq) in G.
      change (document loc) with (fst (document loc, r)). apply in_map, G. }
    apply existsb_eqb_In in I. rewrite I; reflexivity.
  - apply (get_None Nat.eqb Nat.eqb_eq) in G.
    destruct (existsb _ _) eqn:X; [|reflexivity].
    apply existsb_eqb_In in X; contradiction.
Qed.

Lemma keys_add_word idx word : forall fs,
  Dict.keys (add_word idx fs word) =
  fold_left see (map document (postings idx word)) (Dict.keys fs).
Proof.
  unfold add_word. induction (postings idx word) as [|loc locs IH]; simpl;
    intros fs; [reflexivity|].
  rewrite IH, keys_add_loc; reflexivity.
Qed.

Lemma keys_fold_add_word idx ws : forall fs,
  Dict.keys (fold_left (add_word idx) ws fs) =
  fold_left see (visited idx ws) (Dict.keys fs).
Proof.
  unfold visited. induction ws as [|w ws IH]; simpl; intros fs; [reflexivity|].
  rewrite IH, keys_add_word, fold_left_app; reflexivity.
Qed.

(** The keys of [file_scores] are the visited documents, each at the place
    of its first visit. *)
Lemma keys_file_scores idx ws :
  Dict.keys (file_scores_of idx ws) = first_seen (visited idx ws).
Proof. apply keys_fold_add_word. Qed.

Lemma see_spec seen d x : In x (see seen d) <-> In x seen \/ x = d.
Proof.
  unfold see. destruct (existsb _ _) eqn:E.
  - apply existsb_eqb_In in E. split; [auto | intros [H| ->]; assumption].
  - rewrite in_app_iff; simpl. intuition.
Qed.

Lemma NoDup_see seen d : NoDup seen -> NoDup (see seen d).
Proof.
  intros ND. unfold see. destruct (existsb _ _) eqn:E; [assumption|].
  assert (N : ~ In d seen).
  { intros I. apply existsb_eqb_In in I. congruence. }
  apply NoDup_rev in ND. rewrite <- (rev_involutive (_ ++ _)).
  apply NoDup_rev. rewrite rev_app_distr; simpl.
  constructor; [rewrite <- in_rev; assumption | assumption].
Qed.

Lemma fold_see_spec ds : forall seen x,
  In x (fold_left see ds seen) <-> In x seen \/ In x ds.
Proof.
  induction ds as [|d ds IH]; simpl; intros seen x; [tauto|].
  rewrite IH, see_spec. intuition.
Qed.

Lemma NoDup_fold_see ds : forall seen,
  NoDup seen -> NoDup (fold_left see ds seen).
Proof.
  induction ds as [|d ds IH]; simpl; intros seen ND; [assumption|].
  apply IH, NoDup_see, ND.
Qed.

Lemma first_seen_In ds x : In x (first_seen ds) <-> In x ds.
Proof. unfold first_seen. rewrite fold_see_spec; simpl; tauto. Qed.

Lemma NoDup_first_seen ds : NoDup (first_seen ds).
Proof. apply NoDup_fold_see; constructor. Qed.

Lemma visited_In idx ws d :
  In d (visited idx ws) <->
  exists w loc, In w ws /\ In loc (postings idx w) /\ document loc = d.
Proof.
  unfold visited. rewrite in_flat_map. split.
  - intros (w & I & H). apply in_map_iff in H.
    destruct H as (loc & E & L); eauto.
  - intros (w & loc & I & L & E). exists w. split; [assumption|].
    apply in_map_iff; eauto.
Qed.

Lemma score_in_add_loc idx word fs loc d :
  score_in (add_loc idx word fs loc) d =
  if document loc =? d
  then (score_in fs d + tf_val idx loc * idf_val idx word)%R
  else score_in fs d.
Proof.
  unfold score_in, add_loc. rewrite (get_upsert Nat.eqb Nat.eqb_eq).
  rewrite (Nat.eqb_sym d). destruct (Nat.eqb_spec (document loc) d) as [->|N];
    reflexivity.
Qed.

Lemma score_in_add_word idx word d : forall fs,
  score_in (add_word idx fs word) d = (score_in fs d + gain idx d word)%R.
Proof.
  unfold add_word, gain.
  induction (postings idx word) as [|loc locs IH]; simpl; intros fs.
  - lra.
  - rewrite IH, score_in_add_loc.
    destruct (document loc =? d); simpl; lra.
Qed.

Lemma score_in_fold_add_word idx d ws : forall fs,
  score_in (fold_left (add_word idx) ws fs) d =
  (score_in fs d + total_gain idx d ws)%R.
Proof.
  unfold total_gain. induction ws as [|w ws IH]; simpl; intros fs.
  - lra.
  - rewrite IH, score_in_add_word. lra.
Qed.

(** The score of a document is the sum, over the words of the query as
    they come, of what each adds. *)
Lemma score_in_file_scores idx ws d :
  score_in (file_scores_of idx ws) d = total_gain idx d ws.
Proof.
  unfold file_scores_of. rewrite score_in_fold_add_word.
  unfold score_in; simpl. lra.
Qed.

Lemma In_file_scores idx ws d s :
  In (d, s) (file_scores_of idx ws) -> s = total_gain idx d ws.
Proof.
  intros I. rewrite <- score_in_file_scores. unfold score_in.
  rewrite (In_get Nat.eqb Nat.eqb_eq d s); auto.
  rewrite keys_file_scores. apply NoDup_first_seen.
Qed.

(** Each of the [k] occurrences of a term in the query adds the term's
    gain once. *)
Lemma total_gain_occurrences idx d t ws :
  total_gain idx d ws =
  (INR (occurrences t ws) * gain idx d t
   + total_gain idx d (remove string_dec t ws))%R.
Proof.
  unfold total_gain, occurrences.
  induction ws as [|w ws IH]; simpl; [lra|].
  destruct (string_dec w t) as [->|N].
  - destruct (string_dec t t); [|congruence].
    rewrite S_INR, IH. lra.
  - destruct (string_dec t w); [congruence|]. simpl. rewrite IH. lra.
Qed.

Lemma In_ranked idx query r :
  In r (ranked idx query) ->
  In (result_document r, score r) (file_scores_of idx (tokens query)).
Proof.
  unfold ranked. intros I.
  apply (Permutation_in _ (sort_desc_perm _)) in I.
  apply in_map_iff in I. destruct I as ([d s] & <- & I). exact I.
Qed.

Lemma ranked_documents idx query :
  Permutation (map result_document (ranked idx query))
              (first_seen (visited idx (tokens query))).
Proof.
  unfold ranked. rewrite sort_desc_perm, map_map; simpl.
  rewrite <- keys_file_scores. reflexivity.
Qed.

(** *** Scores on a built index *)

Lemma tf_val_pos idx loc : wf_loc idx loc -> (0 < tf_val idx loc)%R.
Proof.
  intros (d & N & B). unfold tf_val. rewrite N.
  apply (ratio_range _ _ B).
Qed.

Lemma ln_nonneg x : (1 <= x)%R -> (0 <= ln x)%R.
Proof.
  intros [L|<-].
  - rewrite <- ln_1. left. apply ln_increasing; lra.
  - rewrite ln_1. lra.
Qed.

Lemma idf_val_nonneg idx term :
  1 <= List.length (postings idx term) <= List.length (documents idx) ->
  (0 <= idf_val idx term)%R.
Proof.
  intros [A B]. unfold idf_val. apply ln_nonneg.
  assert (PA : (0 < INR (List.length (postings idx term)))%R)
    by (apply lt_0_INR; lia).
  assert (PB : (INR (List.length (postings idx term))
                <= INR (List.length (documents idx)))%R) by (apply le_INR; lia).
  set (a := INR (List.length (postings idx term))) in *.
  set (b := INR (List.length (documents idx))) in *.
  replace (1 / (a / b))%R with (b / a)%R by (field; lra).
  apply Rmult_le_reg_r with a; [assumption|].
  replace (b / a * a)%R with b by (field; lra). lra.
Qed.

Lemma postings_from_length t files : forall i,
  List.length (postings_from t i files) <= List.length files.
Proof.
  induction files as [|ft files IH]; simpl; intros i; [lia|].
  rewrite length_app. specialize (IH (S i)).
  unfold posting_of. destruct (positions _ _ _); simpl; lia.
Qed.

Lemma postings_build_length files t :
  List.length (postings (build files) t)
  <= List.length (documents (build files)).
Proof.
  rewrite postings_build, documents_build, documents_from_length.
  apply postings_from_length.
Qed.

Lemma Rsum_nonneg l : Forall (fun x => (0 <= x)%R) l -> (0 <= Rsum l)%R.
Proof. induction 1; simpl; lra. Qed.

Lemma gain_nonneg files d t : (0 <= gain (build files) d t)%R.
Proof.
  unfold gain. apply Rsum_nonneg, Forall_forall. intros x H.
  apply in_map_iff in H. destruct H as (loc & <- & H).
  apply filter_In in H. destruct H as [I _].
  apply Rmult_le_pos.
  - left. apply tf_val_pos.
    pose proof (wf_build files t) as W. rewrite Forall_forall in W. auto.
  - apply idf_val_nonneg. split; [|apply postings_build_length].
    destruct (postings (build files) t); [destruct I | simpl; lia].
Qed.

Lemma total_gain_nonneg files d ws : (0 <= total_gain (build files) d ws)%R.
Proof.
  unfold total_gain. apply Rsum_nonneg, Forall_forall. intros x H.
  apply in_map_iff in H. destruct H as (w & <- & _). apply gain_nonneg.
Qed.

Lemma filter_none {A} (f : A -> bool) l :
  (forall x, In x l -> f x = false) -> filter f l = [].
Proof.
  induction l as [|x l IH]; simpl; intros H; [reflexivity|].
  rewrite (H x) by auto. apply IH; auto.
Qed.

(** A term has at most one posting per document. *)
Lemma filter_postings_from t files : forall i j,
  filter (fun loc => document loc =? i + j) (postings_from t i files) =
  match nth_error files j with
  | Some ft => posting_of t (i + j) (snd ft)
  | None => []
  end.
Proof.
  induction files as [|ft files IH]; simpl; intros i j.
  - destruct j; reflexivity.
  - rewrite filter_app. destruct j as [|j]; simpl.
    + rewrite Nat.add_0_r.
      replace (filter _ (postings_from t (S i) files)) with (@nil Loc).
      * rewrite app_nil_r. unfold posting_of.
        destruct (positions _ _ _); simpl; [|rewrite Nat.eqb_refl]; reflexivity.
      * symmetry. apply filter_none.
        intros loc H. apply In_postings_from in H.
        destruct H as (k & ft' & _ & _ & ->); cbn [document].
        apply Nat.eqb_neq. lia.
    + replace (filter _ (posting_of t i (snd ft))) with (@nil Loc).
      * replace (i + S j) with (S i + j) by lia. apply IH.
      * unfold posting_of. destruct (positions _ _ _); simpl; [reflexivity|].
        destruct (Nat.eqb_spec i (i + S j)); [lia | reflexivity].
Qed.

Lemma gain_build files t loc :
  In loc (postings (build files) t) ->
  gain (build files) (document loc) t =
  (tf_val (build files) loc * idf_val (build files) t)%R.
Proof.
  intros I. unfold gain. rewrite postings_build in *.
  apply In_postings_from in I. destruct I as (j & ft & N & I & ->).
  cbn [document]. rewrite (filter_postings_from t files 0 j), N.
  unfold posting_of. destruct (positions t 0 (tokens (snd ft))) eqn:E.
  - apply positions_nil in E; contradiction.
  - simpl. lra.
Qed.

Lemma slice_to_of_nat {A} (l : list A) k :
  slice_to l (Z.of_nat k) = firstn k l.
Proof. rewrite slice_to_nonneg by lia. rewrite Nat2Z.id; reflexivity. Qed.

Lemma slice_to_neg_pos {A} (l : list A) p :
  slice_to l (Z.neg p) = firstn (List.length l - Pos.to_nat p) l.
Proof. rewrite slice_to_neg by lia. reflexivity. Qed.

Lemma ranked_scores idx query :
  Forall (fun r => score r = total_gain idx (result_document r) (tokens query))
         (ranked idx query).
Proof.
  apply Forall_forall. intros r I. apply In_ranked in I.
  apply In_file_scores in I. exact I.
Qed.

Lemma with_score_items (g : nat -> R) s fs :
  Forall (fun ds => snd ds = g (fst ds)) fs ->
  map result_document
    (with_score s (map (fun ds => mkResult (fst ds) (snd ds)) fs)) =
  filter (fun d => if Req_dec_T (g d) s then true else false) (Dict.keys fs).
Proof.
  induction 1 as [|[d v] fs E F IH]; simpl in *; [reflexivity|].
  subst v. destruct (Req_dec_T (g d) s); simpl; rewrite IH; reflexivity.
Qed.

(** *** Concrete searches *)

Ltac run_search files :=
  rewrite (search_eq _ _ _ (wf_build files)); cbn [snd];
  unfold ranked, file_scores_of;
  cbv -[Rplus Rmult IZR INR ln Rdiv Rinv Rlt_dec].

Lemma ln_2_pos : (0 < ln 2)%R.
Proof. pose proof ln_lt_2; lra. Qed.

Lemma idf_one_of_two : ln (1 / (INR 1 / INR 2)) = ln 2.
Proof. f_equal. simpl. field. Qed.

Lemma idf_all : forall n, n <> 0 -> ln (1 / (INR n / INR n)) = 0%R.
Proof.
  intros n N. rewrite <- ln_1. f_equal. field. apply not_0_INR, N.
Qed.


(** C4, as stated, fails.  On the scenario corpus, [search("cat sat",
    limit=-1)] raises nothing: it returns the ranked matches, documents 0
    and 1, without the last one. *)
Lemma search_negative_limit_returns :
  (exists s, snd (search "cat sat" (-1) (build scenario_files))
             = Ok [mkResult 0 s])
  /\ forall e, snd (search "cat sat" (-1) (build scenario_files)) <> Raise e.
Proof.
  split.
  - run_search scenario_files.
    rewrite idf_one_of_two, (idf_all 2) by lia.
    destruct (Rlt_dec _ _) as [L|L].
    + exfalso. pose proof ln_2_pos.
      replace (INR 100 / INR 1)%R with 100%R in L
        by (rewrite INR_IZR_INZ; simpl; field).
      lra.
    + eexists; reflexivity.
  - intros e. rewrite (search_eq _ _ _ (wf_build scenario_files)).
    discriminate.
Qed.

(** The scenario of the specification: [cat] stands in document 0 only, so
    document 0 ranks above document 1, and [limit=1] returns it alone. *)
Example scenario_cat_sat :
  exists s0 s1,
    snd (search "cat sat" 10 (build scenario_files))
      = Ok [mkResult 0 s0; mkResult 1 s1]
    /\ (s1 < s0)%R
    /\ snd (search "cat sat" 1 (build scenario_files)) = Ok [mkResult 0 s0].
Proof.
  do 2 eexists. split; [|split].
  - run_search scenario_files.
    rewrite idf_one_of_two, (idf_all 2) by lia.
    destruct (Rlt_dec _ _) as [L|L]; [|reflexivity].
    exfalso. pose proof ln_2_pos.
    replace (INR 100 / INR 1)%R with 100%R in L
      by (rewrite INR_IZR_INZ; simpl; field).
    lra.
  - pose proof ln_2_pos.
    replace (INR 100 / INR 1)%R with 100%R
      by (rewrite INR_IZR_INZ; simpl; field).
    lra.
  - run_search scenario_files.
    rewrite idf_one_of_two, (idf_all 2) by lia.
    destruct (Rlt_dec _ _) as [L|L]; [|reflexivity].
    exfalso. pose proof ln_2_pos.
    replace (INR 100 / INR 1)%R with 100%R in L
      by (rewrite INR_IZR_INZ; simpl; field).
    lra.
Qed.

(** ** The postings blob of [save] *)

Lemma upsert_nonempty k (v : Loc) t :
  Forall (fun wl : string * list Loc => snd wl <> []) t ->
  Forall (fun wl : string * list Loc => snd wl <> [])
         (Dict.upsert String.eqb k [] (fun l => l ++ [v]) t).
Proof.
  induction 1 as [|[k' l] t H F IH]; simpl.
  - constructor; [|constructor]. simpl. discriminate.
  - destruct (String.eqb k k'); constructor; auto.
    simpl. intros E. apply app_eq_nil in E. destruct E; discriminate.
Qed.

Lemma append_all_nonempty locs : forall t,
  Forall (fun wl : string * list Loc => snd wl <> []) t ->
  Forall (fun wl : string * list Loc => snd wl <> []) (append_all locs t).
Proof.
  unfold append_all. induction locs as [|wl locs IH]; simpl; intros t F;
    [assumption|].
  apply IH, upsert_nonempty, F.
Qed.

Lemma added_nonempty filename text idx :
  Forall (fun wl : string * list Loc => snd wl <> []) (terms idx) ->
  Forall (fun wl : string * list Loc => snd wl <> [])
         (terms (added filename text idx)).
Proof.
  intros F. unfold added. destruct (py_max _); simpl;
    [apply append_all_nonempty|]; assumption.
Qed.

(** No term of a built index has an empty posting list. *)
Lemma build_nonempty files :
  Forall (fun wl : string * list Loc => snd wl <> []) (terms (build files)).
Proof.
  unfold build.
  assert (H : forall idx,
    Forall (fun wl : string * list Loc => snd wl <> []) (terms idx) ->
    Forall (fun wl : string * list Loc => snd wl <> [])
      (terms (fold_left
                (fun idx ft => fst (add_doc (fst ft) (snd ft) idx))
                files idx))).
  { induction files as [|[fn text] files IH]; simpl; intros idx F;
      [assumption|].
    apply IH. rewrite fst_add_doc. apply added_nonempty, F. }
  apply H. constructor.
Qed.

Lemma save_first_posting idx word loc locs rest :
  terms idx = (word, loc :: locs) :: rest ->
  save idx =
  ({| documents_file := Some (documents_txt (documents idx));
      index_file := Some [];
      directory_file := None |}, Raise AttributeError).
Proof. intros E. unfold save. rewrite E. reflexivity. Qed.

(** C1.  On every built index that holds a term, [save] raises
    [AttributeError] at the first posting: [bits] is a [bytes] object and
    has no [append].  [index.dat] is left empty and [directory.txt] is not
    written, so there is no blob and no byte range to decode. *)
Theorem save_raises files i filename text t :
  nth_error files i = Some (filename, text) ->
  In t (tokens text) ->
  save (build files) =
  ({| documents_file := Some (documents_txt (documents (build files)));
      index_file := Some [];
      directory_file := None |}, Raise AttributeError).
Proof.
  intros N I.
  assert (P : In (mkLoc i (positions t 0 (tokens text)))
                 (postings (build files) t)).
  { rewrite postings_build. apply In_postings_from.
    exists i, (filename, text); auto. }
  pose proof (build_nonempty files) as F.
  destruct (terms (build files)) as [|[word [|loc locs]] rest] eqn:E.
  - unfold postings in P. rewrite E in P. destruct P.
  - inversion F; subst. simpl in *. congruence.
  - eapply save_first_posting; eauto.
Qed.

Lemma save_raises_witness :
  (nth_error one_file 0 = Some ("a.txt", "cat") /\ In "cat" (tokens "cat"))
  /\ save (build one_file) =
     ({| documents_file := Some (documents_txt (documents (build one_file)));
         index_file := Some [];
         directory_file := None |}, Raise AttributeError).
Proof.
  assert (H1 : nth_error one_file 0 = Some ("a.txt", "cat")) by reflexivity.
  assert (H2 : In "cat" (tokens "cat")) by (vm_compute; tauto).
  split; [split; assumption|].
  exact (save_raises one_file 0 "a.txt" "cat" "cat" H1 H2).
Defined.

(** An index without postings is written in full: all three files, the
    last two empty. *)
Example save_empty_index :
  save empty_index =
  ({| documents_file := Some ""; index_file := Some [];
      directory_file := Some "" |}, Ok tt).
Proof. reflexivity. Qed.

(* ------------------------------------------------------------------ *)
(** * Further properties *)

(** ** The tokenizer *)

(** X1.  No term that [tokens] yields holds a whitespace character; in
    particular none holds a line break. *)
Theorem tokens_without_whitespace text w c :
  In w (tokens text) -> In c (Text.chars w) ->
  Text.isspace c = false /\ c <> newline.
Proof.
  intros Hw Hc. pose proof (tokens_no_space text w c Hw Hc) as S.
  split; [exact S|]. intros ->. discriminate S.
Qed.

Lemma tokens_without_whitespace_witness :
  (In "mat." (tokens "The cat sat on   the Mat.")
   /\ In "."%char (Text.chars "mat."))
  /\ Text.isspace "."%char = false /\ "."%char <> newline.
Proof.
  assert (H1 : In "mat." (tokens "The cat sat on   the Mat."))
    by (vm_compute; tauto).
  assert (H2 : In "."%char (Text.chars "mat.")) by (vm_compute; tauto).
  split; [split; assumption|].
  exact (tokens_without_whitespace _ _ _ H1 H2).
Defined.

Lemma lower_char_idempotent c :
  Text.lower_char (Text.lower_char c) = Text.lower_char c.
Proof. apply lower_char_fixed, lower_char_not_upper. Qed.

Lemma lower_idempotent s : Text.lower (Text.lower s) = Text.lower s.
Proof.
  induction s as [|c s IH]; simpl; [reflexivity|].
  rewrite lower_char_idempotent, IH; reflexivity.
Qed.

Lemma lower_app s t :
  Text.lower (s ++ t) = (Text.lower s ++ Text.lower t)%string.
Proof. induction s as [|c s IH]; simpl; [|rewrite IH]; reflexivity. Qed.

Lemma isspace_lower_char c :
  Text.isspace (Text.lower_char c) = Text.isspace c.
Proof. destruct c as [[] [] [] [] [] [] [] []]; reflexivity. Qed.

Lemma split_from_app a sep b : forall cur,
  Text.isspace sep = true ->
  Text.split_from cur (a ++ String sep b)
  = Text.split_from cur a ++ Text.split b.
Proof.
  induction a as [|c a IH]; simpl; intros cur S.
  - rewrite S. destruct cur; reflexivity.
  - destruct (Text.isspace c).
    + destruct cur; simpl; rewrite IH by assumption; reflexivity.
    + apply IH, S.
Qed.

(** X2.  The tokenizer ignores case: a text and its lower-casing yield
    the same terms, and so do two texts with the same lower-casing. *)
Theorem tokens_ignore_case text :
  tokens (Text.lower text) = tokens text
  /\ forall text', Text.lower text' = Text.lower text ->
                   tokens text' = tokens text.
Proof.
  split.
  - unfold tokens. rewrite lower_idempotent. reflexivity.
  - intros text' E. unfold tokens. rewrite E. reflexivity.
Qed.

(** X3.  Tokens do not cross whitespace: the terms of two texts joined by
    a whitespace character are the terms of the first followed by the
    terms of the second. *)
Theorem tokens_app a sep b :
  Text.isspace sep = true ->
  tokens (a ++ String sep b) = tokens a ++ tokens b.
Proof.
  intros S. unfold tokens. rewrite lower_app. simpl Text.lower.
  unfold Text.split.
  rewrite split_from_app by (rewrite isspace_lower_char; exact S).
  apply filter_app.
Qed.

Lemma tokens_app_witness :
  Text.isspace " "%char = true
  /\ tokens ("the Cat" ++ String " "%char "sat on")
     = tokens "the Cat" ++ tokens "sat on".
Proof.
  split; [reflexivity|].
  exact (tokens_app "the Cat" " "%char "sat on" eq_refl).
Defined.

(** ** Document names *)

Lemma replace_no_dot base :
  (forall c, In c (Text.chars base) -> c <> "."%char) ->
  Text.replace base ".txt" "" = base.
Proof.
  unfold Text.replace. induction base as [|a base IH]; intros H.
  - reflexivity.
  - rewrite replace_from_keep.
    + f_equal. apply IH. intros c I. apply H. right; exact I.
    + apply prefix_head_neq. intros E. apply (H a); [left; reflexivity|].
      symmetry; exact E.
Qed.

(** X4.  For a filename without a dot the display name is the filename,
    and for such a name followed by [.txt] it is the name without the
    suffix. *)
Theorem document_name_simple base i :
  (forall c, In c (Text.chars base) -> c <> "."%char) ->
  name (Document_init i base) = base
  /\ name (Document_init i (base ++ ".txt")) = base.
Proof.
  intros H. split.
  - apply replace_no_dot, H.
  - apply replace_trailing_txt, H.
Qed.

Lemma document_name_simple_witness :
  (forall c, In c (Text.chars "notes") -> c <> "."%char)
  /\ name (Document_init 3 "notes") = "notes"
  /\ name (Document_init 3 ("notes" ++ ".txt")) = "notes".
Proof.
  assert (H : forall c, In c (Text.chars "notes") -> c <> "."%char).
  { intros c I. simpl in I.
    repeat (destruct I as [<-|I]; [discriminate|]). destruct I. }
  split; [exact H|].
  exact (document_name_simple "notes" 3 H).
Defined.

(** ** Ingestion *)

Lemma max_occurrences_zero ws : max_occurrences ws = 0 <-> ws = [].
Proof.
  split; [|intros ->; reflexivity].
  intros Z. destruct ws as [|w ws]; [reflexivity|]. exfalso.
  pose proof (occurrences_le_max w (w :: ws)) as L.
  assert (P : 1 <= occurrences w (w :: ws))
    by (apply occurrences_pos; left; reflexivity).
  lia.
Qed.

Lemma max_occurrences_bound ws : max_occurrences ws <= List.length ws.
Proof.
  unfold max_occurrences. apply list_max_le, Forall_forall.
  intros n I. apply in_map_iff in I. destruct I as (w & <- & _).
  apply count_occ_bound.
Qed.

(** X5.  On every index [add_doc] appends exactly one Document: its id
    is the number of documents before the call, its [max_tf] is the
    highest number of occurrences of one of its terms.  The call returns
    when the text yields a token and raises [ValueError] when it yields
    none. *)
Theorem add_doc_registers filename text idx :
  documents (fst (add_doc filename text idx))
  = documents idx
    ++ [{| id := List.length (documents idx);
           name := Text.replace filename ".txt" "";
           filename := filename;
           max_tf := max_occurrences (tokens text) |}]
  /\ snd (add_doc filename text idx)
     = (if truthy (tokens text) then Ok tt else Raise ValueError)
  /\ (forall w, occurrences w (tokens text) <= max_occurrences (tokens text))
  /\ (max_occurrences (tokens text) = 0 <-> tokens text = [])
  /\ max_occurrences (tokens text) <= List.length (tokens text).
Proof.
  split; [|split; [|split; [|split]]].
  - rewrite fst_add_doc, documents_added. reflexivity.
  - rewrite add_doc_eq. simpl. destruct (tokens text); reflexivity.
  - intros w. apply occurrences_le_max.
  - apply max_occurrences_zero.
  - apply max_occurrences_bound.
Qed.

(** X6.  On every index, what [lookup] returns for a term after
    [add_doc] is what it returned before, followed by the posting of the
    new document when its text yields the term; the postings of all other
    terms stay as they were. *)
Theorem lookup_after_add_doc filename text idx w :
  snd (lookup w (fst (add_doc filename text idx)))
  = Ok (postings idx w
        ++ (if Text.mem w (tokens text)
            then [mkLoc (List.length (documents idx))
                        (positions w 0 (tokens text))]
            else []))
  /\ snd (lookup w idx) = Ok (postings idx w).
Proof.
  split; [|reflexivity].
  rewrite lookup_eq, fst_add_doc, postings_added. simpl. do 2 f_equal.
  unfold posting_of.
  destruct (Text.mem w (tokens text)) eqn:M.
  - apply mem_In in M.
    destruct (positions w 0 (tokens text)) eqn:E; [|reflexivity].
    apply positions_nil in E. contradiction.
  - destruct (positions w 0 (tokens text)) eqn:E; [reflexivity|].
    exfalso. assert (I : In w (tokens text)).
    { destruct (in_dec string_dec w (tokens text)) as [I|I]; [assumption|].
      apply (proj2 (positions_nil w 0 _)) in I. congruence. }
    apply mem_In in I. congruence.
Qed.

Lemma positions_spec w ws : forall k o,
  In o (positions w k ws) <-> k <= o /\ nth_error ws (o - k) = Some w.
Proof.
  induction ws as [|x ws IH]; simpl; intros k o.
  - split; [tauto|]. intros [_ H]. destruct (o - k); discriminate.
  - assert (R : In o (positions w (S k) ws) <->
                k < o /\ nth_error (x :: ws) (o - k) = Some w).
    { rewrite IH. split.
      - intros [L H]. split; [lia|].
        replace (o - k) with (S (o - S k)) by lia. exact H.
      - intros [L H]. split; [lia|].
        replace (o - k) with (S (o - S k)) in H by lia. exact H. }
    destruct (String.eqb_spec w x) as [->|N].
    + simpl. rewrite R. split.
      * intros [<-|[L H]]; [|split; [lia | exact H]].
        split; [lia|]. rewrite Nat.sub_diag. reflexivity.
      * intros [L H]. destruct (Nat.eq_dec k o) as [E|E]; [left; exact E|].
        right. split; [lia | exact H].
    + rewrite R. split.
      * intros [L H]. split; [lia | exact H].
      * intros [L H]. split; [|exact H].
        destruct (Nat.eq_dec k o) as [<-|E]; [|lia].
        rewrite Nat.sub_diag in H. simpl in H. congruence.
Qed.

Lemma positions_sorted w ws : forall k,
  StronglySorted lt (positions w k ws).
Proof.
  induction ws as [|x ws IH]; simpl; intros k; [constructor|].
  destruct (String.eqb w x); [|apply IH].
  constructor; [apply IH|]. apply Forall_forall. intros o I.
  apply positions_spec in I. lia.
Qed.

(** X7.  In a built index each posting of a term belongs to one of the
    files: its offset list is not empty, is strictly increasing, and holds
    exactly the positions at which the term stands among the tokens of
    that file's text. *)
Theorem posting_offsets files w loc :
  In loc (postings (build files) w) ->
  exists filename text,
    nth_error files (document loc) = Some (filename, text)
    /\ offsets loc <> []
    /\ StronglySorted lt (offsets loc)
    /\ List.length (offsets loc) = occurrences w (tokens text)
    /\ forall o, In o (offsets loc) <-> nth_error (tokens text) o = Some w.
Proof.
  intros I. rewrite postings_build in I. apply In_postings_from in I.
  destruct I as (j & [fn text] & N & T & ->). simpl in *.
  exists fn, text. split; [exact N|]. split; [|split; [|split]].
  - intros E. apply positions_nil in E. contradiction.
  - apply positions_sorted.
  - apply positions_length.
  - intros o. rewrite positions_spec, Nat.sub_0_r. split; [tauto|].
    intros H. split; [lia | exact H].
Qed.

Lemma posting_offsets_witness :
  In (mkLoc 0 [0; 2]) (postings (build two_files) "cat")
  /\ exists filename text,
       nth_error two_files (document (mkLoc 0 [0; 2])) = Some (filename, text)
       /\ offsets (mkLoc 0 [0; 2]) <> []
       /\ StronglySorted lt (offsets (mkLoc 0 [0; 2]))
       /\ List.length (offsets (mkLoc 0 [0; 2]))
          = occurrences "cat" (tokens text)
       /\ forall o, In o (offsets (mkLoc 0 [0; 2]))
                    <-> nth_error (tokens text) o = Some "cat".
Proof.
  assert (H : In (mkLoc 0 [0; 2]) (postings (build two_files) "cat"))
    by (vm_compute; tauto).
  split; [exact H|].
  exact (posting_offsets two_files "cat" (mkLoc 0 [0; 2]) H).
Defined.

Lemma postings_from_sorted w files : forall i,
  StronglySorted lt (map document (postings_from w i files)).
Proof.
  induction files as [|ft files IH]; simpl; intros i; [constructor|].
  unfold posting_of. destruct (positions w 0 (tokens (snd ft))); simpl.
  - apply IH.
  - constructor; [apply IH|]. apply Forall_forall. intros d I.
    apply in_map_iff in I. destruct I as (loc & <- & I).
    apply In_postings_from in I. destruct I as (j & ft' & _ & _ & ->).
    simpl. lia.
Qed.

(** X8.  In a built index the postings of a term are those of the files
    whose text yields the term, one per file and in the order of
    ingestion: the document ids of the list are strictly increasing and
    below the number of documents. *)
Theorem postings_in_ingestion_order files w :
  lookup w (build files) = (build files, Ok (postings_from w 0 files))
  /\ StronglySorted lt (map document (postings_from w 0 files))
  /\ Forall (fun d => d < List.length (documents (build files)))
            (map document (postings_from w 0 files))
  /\ forall i,
       In i (map document (postings_from w 0 files)) <->
       exists ft, nth_error files i = Some ft /\ In w (tokens (snd ft)).
Proof.
  split; [|split; [|split]].
  - rewrite lookup_eq, postings_build. reflexivity.
  - apply postings_from_sorted.
  - apply Forall_forall. intros d I.
    apply in_map_iff in I. destruct I as (loc & <- & I).
    apply In_postings_from in I. destruct I as (j & ft & N & _ & ->).
    rewrite documents_build, documents_from_length. simpl.
    apply nth_error_Some. congruence.
  - intros i. rewrite in_map_iff. split.
    + intros (loc & <- & I). apply In_postings_from in I.
      destruct I as (j & ft & N & T & ->). simpl. eauto.
    + intros (ft & N & T).
      exists (mkLoc i (positions w 0 (tokens (snd ft)))). split; [reflexivity|].
      apply In_postings_from. exists i, ft. auto.
Qed.

(** X9.  The documents of a built index are those of the files, in
    order: document [i] has id [i] and the filename of file [i], and its
    [max_tf] is the highest number of occurrences of one of its terms,
    which is 0 exactly for a file without a token. *)
Theorem documents_in_ingestion_order files :
  documents (build files) = documents_from 0 files
  /\ List.length (documents (build files)) = List.length files
  /\ forall i d,
       nth_error (documents (build files)) i = Some d ->
       exists ft,
         nth_error files i = Some ft
         /\ id d = i
         /\ filename d = fst ft
         /\ name d = Text.replace (fst ft) ".txt" ""
         /\ max_tf d = max_occurrences (tokens (snd ft))
         /\ (max_tf d = 0 <-> tokens (snd ft) = []).
Proof.
  split; [apply documents_build | split].
  - rewrite documents_build. apply documents_from_length.
  - intros i d N. rewrite documents_build, nth_documents_from in N.
    destruct (nth_error files i) as [ft|]; [|discriminate].
    injection N as <-. exists ft. simpl.
    repeat split; try reflexivity; apply max_occurrences_zero.
Qed.

(** ** The term dictionary *)

Lemma keys_upsert_see {V} k (d : V) f (l : list (string * V)) :
  Dict.keys (Dict.upsert String.eqb k d f l) = see_word (Dict.keys l) k.
Proof.
  rewrite (keys_upsert String.eqb). unfold see_word.
  destruct (Dict.get String.eqb k l) eqn:G.
  - assert (I : In k (Dict.keys l)).
    { apply (get_Some_In String.eqb String.eqb_eq) in G.
      change k with (fst (k, v)). apply in_map, G. }
    apply mem_In in I. rewrite I. reflexivity.
  - apply (get_None String.eqb String.eqb_eq) in G.
    destruct (Text.mem k (Dict.keys l)) eqn:M; [|reflexivity].
    apply mem_In in M. contradiction.
Qed.

Lemma keys_fold_note doc l : forall acc,
  Dict.keys (fold_left (note_offset doc) l acc)
  = fold_left see_word (map snd l) (Dict.keys acc).
Proof.
  induction l as [|[i w] l IH]; simpl; intros acc; [reflexivity|].
  rewrite IH. unfold note_offset. rewrite keys_upsert_see. reflexivity.
Qed.

Lemma keys_locs_of doc ws : Dict.keys (locs_of doc ws) = first_words ws.
Proof.
  unfold locs_of, enumerate, first_words. rewrite keys_fold_note.
  f_equal. clear. generalize 0.
  induction ws as [|w ws IH]; simpl; intros k; [reflexivity|].
  rewrite IH. reflexivity.
Qed.

Lemma keys_append_all locs : forall t,
  Dict.keys (append_all locs t)
  = fold_left see_word (Dict.keys locs) (Dict.keys t).
Proof.
  unfold append_all. induction locs as [|[w loc] locs IH]; simpl; intros t;
    [reflexivity|].
  rewrite IH, keys_upsert_see. reflexivity.
Qed.

Lemma see_word_spec seen w x : In x (see_word seen w) <-> In x seen \/ x = w.
Proof.
  unfold see_word. destruct (Text.mem w seen) eqn:E.
  - apply mem_In in E. split; [auto | intros [H| ->]; assumption].
  - rewrite in_app_iff; simpl. intuition.
Qed.

Lemma fold_see_word_spec ws : forall seen x,
  In x (fold_left see_word ws seen) <-> In x seen \/ In x ws.
Proof.
  induction ws as [|w ws IH]; simpl; intros seen x; [tauto|].
  rewrite IH, see_word_spec. intuition.
Qed.

Lemma NoDup_see_word seen w : NoDup seen -> NoDup (see_word seen w).
Proof.
  intros ND. unfold see_word. destruct (Text.mem w seen) eqn:E; [assumption|].
  assert (N : ~ In w seen).
  { intros I. apply mem_In in I. congruence. }
  apply NoDup_rev in ND. rewrite <- (rev_involutive (_ ++ _)).
  apply NoDup_rev. rewrite rev_app_distr; simpl.
  constructor; [rewrite <- in_rev; assumption | assumption].
Qed.

Lemma NoDup_fold_see_word ws : forall seen,
  NoDup seen -> NoDup (fold_left see_word ws seen).
Proof.
  induction ws as [|w ws IH]; simpl; intros seen ND; [assumption|].
  apply IH, NoDup_see_word, ND.
Qed.

Lemma see_word_known seen w : In w seen -> see_word seen w = seen.
Proof. intros I. unfold see_word. apply mem_In in I. rewrite I. reflexivity. Qed.

Lemma see_word_new seen w :
  Text.mem w seen = false -> see_word seen w = seen ++ [w].
Proof. intros M. unfold see_word. rewrite M. reflexivity. Qed.

(** Adding the first occurrences of [ws] is adding [ws]. *)
Lemma fold_see_first_words ws : forall acc,
  fold_left see_word (first_words ws) acc = fold_left see_word ws acc.
Proof.
  unfold first_words. induction ws as [|w ws IH] using rev_ind; intros acc;
    [reflexivity|].
  rewrite !fold_left_app. simpl.
  destruct (Text.mem w (fold_left see_word ws [])) eqn:M.
  - assert (I : In w ws).
    { apply mem_In, fold_see_word_spec in M. destruct M as [[]|M]. exact M. }
    rewrite (see_word_known (fold_left see_word ws []) w)
      by (apply fold_see_word_spec; right; exact I).
    rewrite IH. symmetry. apply see_word_known.
    apply fold_see_word_spec. right. exact I.
  - rewrite (see_word_new (fold_left see_word ws []) w M).
    rewrite fold_left_app, IH. reflexivity.
Qed.

Lemma keys_added filename text idx :
  Dict.keys (terms (added filename text idx))
  = fold_left see_word (tokens text) (Dict.keys (terms idx)).
Proof.
  unfold added. rewrite py_max_locs_of.
  destruct (tokens text) eqn:E; [reflexivity|]. rewrite <- E. cbn [terms].
  rewrite keys_append_all, keys_locs_of. apply fold_see_first_words.
Qed.

Lemma keys_build_from files : forall idx,
  Dict.keys (terms (fold_left
                      (fun idx ft => fst (add_doc (fst ft) (snd ft) idx))
                      files idx))
  = fold_left see_word (flat_map (fun ft => tokens (snd ft)) files)
      (Dict.keys (terms idx)).
Proof.
  induction files as [|[fn text] files IH]; simpl; intros idx; [reflexivity|].
  rewrite IH, fst_add_doc, keys_added, fold_left_app. reflexivity.
Qed.

(** X10.  The terms of a built index are the tokens of its files, each
    once, in the order in which the files, read in ingestion order, first
    yield them; this is the order in which [save] visits them. *)
Theorem terms_in_first_seen_order files :
  Dict.keys (terms (build files))
  = first_words (flat_map (fun ft => tokens (snd ft)) files)
  /\ NoDup (Dict.keys (terms (build files)))
  /\ forall w,
       In w (Dict.keys (terms (build files))) <->
       exists ft, In ft files /\ In w (tokens (snd ft)).
Proof.
  assert (K : Dict.keys (terms (build files))
              = first_words (flat_map (fun ft => tokens (snd ft)) files)).
  { apply (keys_build_from files empty_index). }
  rewrite K. split; [reflexivity | split].
  - apply NoDup_fold_see_word. constructor.
  - intros w. unfold first_words. rewrite fold_see_word_spec, in_flat_map.
    simpl. tauto.
Qed.


(** ** Inverse document frequency *)

Lemma idf_number_ratio df n :
  1 <= df -> 1 <= n -> idf_number df n = ln (INR n / INR df).
Proof.
  intros A B. unfold idf_number. f_equal.
  assert (PA : (0 < INR df)%R) by (apply lt_0_INR; lia).
  assert (PB : (0 < INR n)%R) by (apply lt_0_INR; lia).
  field. lra.
Qed.

Lemma ln_le_mono x y : (0 < x)%R -> (x <= y)%R -> (ln x <= ln y)%R.
Proof.
  intros P [L|<-]; [left; apply ln_increasing; assumption | lra].
Qed.

(** X11.  On a built index [idf] never raises.  For a term without
    postings it returns [None]; for a term held by [df] of the [n]
    documents it returns [ln (n / df)], which is at least 0, is 0 exactly
    when every document holds the term, and does not grow when more of the
    documents hold the term. *)
Theorem idf_of_term files term :
  let idx := build files in
  let df := List.length (postings idx term) in
  let n := List.length (documents idx) in
  idf term idx
  = (idx, Ok (if df =? 0 then None else Some (idf_number df n)))
  /\ df <= n
  /\ (1 <= df ->
      idf_number df n = ln (INR n / INR df)
      /\ (0 <= idf_number df n)%R
      /\ (idf_number df n = 0%R <-> df = n)
      /\ forall df', df <= df' -> (idf_number df' n <= idf_number df n)%R).
Proof.
  intros idx df n.
  assert (B : df <= n) by apply postings_build_length.
  split; [|split; [exact B|]].
  - pose proof (wf_build files term) as W. fold idx in W.
    destruct (postings idx term) as [|loc locs] eqn:E.
    + unfold idf, bind. rewrite lookup_eq.
      unfold df. rewrite E. reflexivity.
    + rewrite idf_eq.
      * unfold df, idf_number, idf_val, n. rewrite E. reflexivity.
      * rewrite E. discriminate.
      * inversion W; subst. eapply wf_documents; eauto.
  - intros A.
    assert (PA : (0 < INR df)%R) by (apply lt_0_INR; lia).
    assert (PB : (INR df <= INR n)%R) by (apply le_INR; lia).
    split; [apply idf_number_ratio; lia | split; [|split]].
    + rewrite idf_number_ratio by lia. apply ln_nonneg.
      apply Rmult_le_reg_r with (INR df); [assumption|].
      replace (INR n / INR df * INR df)%R with (INR n) by (field; lra). lra.
    + rewrite idf_number_ratio by lia. split.
      * intros Z. rewrite <- ln_1 in Z. apply ln_inv in Z; [| |lra].
        -- apply INR_eq. apply (f_equal (fun x => (x * INR df)%R)) in Z.
           replace (INR n / INR df * INR df)%R with (INR n) in Z
             by (field; lra). lra.
        -- apply Rdiv_lt_0_compat; lra.
      * intros E. rewrite <- E. rewrite <- ln_1. f_equal. field. lra.
    + intros df' L. rewrite !idf_number_ratio by lia.
      assert (PA' : (INR df <= INR df')%R) by (apply le_INR; lia).
      apply ln_le_mono.
      * apply Rdiv_lt_0_compat; lra.
      * apply Rmult_le_reg_r with (INR df * INR df')%R; [nra|].
        replace (INR n / INR df' * (INR df * INR df'))%R
          with (INR n * INR df)%R by (field; lra).
        replace (INR n / INR df * (INR df * INR df'))%R
          with (INR n * INR df')%R by (field; lra).
        nra.
Qed.

(** ** Search *)

Lemma foldM_score_word_no_match idx ws : forall fs,
  (forall w, In w ws -> postings idx w = []) ->
  foldM score_word ws fs idx = (idx, Ok fs).
Proof.
  induction ws as [|w ws IH]; simpl; intros fs H; [reflexivity|].
  unfold bind. unfold score_word at 1. unfold bind.
  rewrite lookup_eq, (H w) by (left; reflexivity). simpl.
  apply IH. intros x I. apply H. right; exact I.
Qed.

Lemma slice_to_nil {A} k : slice_to (@nil A) k = [].
Proof. unfold slice_to. destruct (0 <=? k)%Z; apply firstn_nil. Qed.

(** X12.  On every index, a query none of whose tokens has a posting
    (unknown words, stop words, no word at all) is no error: [search]
    returns the empty list, for every limit. *)
Theorem search_no_match idx query limit :
  (forall w, In w (tokens query) -> postings idx w = []) ->
  search query limit idx = (idx, Ok []).
Proof.
  intros H. unfold search, bind.
  rewrite foldM_score_word_no_match by exact H.
  simpl. unfold ret. rewrite slice_to_nil. reflexivity.
Qed.

Lemma search_no_match_witness :
  (forall w, In w (tokens "The zebra") ->
             postings (build scenario_files) w = [])
  /\ search "The zebra" 10 (build scenario_files)
     = (build scenario_files, Ok []).
Proof.
  assert (H : forall w, In w (tokens "The zebra") ->
                        postings (build scenario_files) w = []).
  { intros w I. vm_compute in I. destruct I as [<-|[]]. reflexivity. }
  split; [exact H|].
  exact (search_no_match (build scenario_files) "The zebra" 10 H).
Defined.

Lemma NoDup_app_l {A} (l1 l2 : list A) : NoDup (l1 ++ l2) -> NoDup l1.
Proof.
  induction l1 as [|x l1 IH]; simpl; intros ND; [constructor|].
  inversion ND; subst. constructor; [|auto].
  intros I. apply H1. apply in_or_app. left; exact I.
Qed.

(** X13.  On a built index the results of [search] name stored
    documents, each at most once, so there are never more results than
    documents. *)
Theorem search_results_are_documents files query limit :
  exists res,
    search query limit (build files) = (build files, Ok res)
    /\ NoDup (map result_document res)
    /\ Forall (fun r => result_document r
                        < List.length (documents (build files))) res
    /\ List.length res <= List.length (documents (build files)).
Proof.
  pose proof (wf_build files) as W.
  exists (slice_to (ranked (build files) query) limit).
  pose proof (ranked_documents (build files) query) as P.
  destruct (slice_to_prefix (ranked (build files) query) limit) as [rest E].
  assert (ND : NoDup (map result_document
                        (slice_to (ranked (build files) query) limit))).
  { pose proof (Permutation_NoDup (Permutation_sym P)
                  (NoDup_first_seen _)) as ND'.
    rewrite E, map_app in ND'. apply NoDup_app_l in ND'. exact ND'. }
  assert (F : Forall (fun r => result_document r
                        < List.length (documents (build files)))
                (slice_to (ranked (build files) query) limit)).
  { apply Forall_forall. intros r I. apply slice_to_In in I.
    assert (V : In (result_document r)
                   (first_seen (visited (build files) (tokens query)))).
    { apply (Permutation_in _ P). apply in_map, I. }
    apply first_seen_In, visited_In in V.
    destruct V as (w & loc & _ & L & <-).
    specialize (W w). rewrite Forall_forall in W.
    destruct (W loc L) as (d & N & _).
    apply nth_error_Some. congruence. }
  split; [apply search_eq, W | split; [exact ND | split; [exact F|]]].
  rewrite <- (length_map result_document).
  apply Nat.le_trans
    with (List.length (seq 0 (List.length (documents (build files)))));
    [|rewrite length_seq; lia].
  apply NoDup_incl_length; [exact ND|].
  intros d I. apply in_seq. split; [lia|]. simpl.
  apply in_map_iff in I. destruct I as (r & <- & I).
  rewrite Forall_forall in F. apply F, I.
Qed.

(** ** The constructor *)

Lemma forM_add_doc files : forall idx,
  forM_ (fun ft => add_doc (fst ft) (snd ft)) files idx
  = (fold_left (fun idx ft => fst (add_doc (fst ft) (snd ft) idx))
       (until_empty files) idx,
     if forallb has_tokens files then Ok tt else Raise ValueError).
Proof.
  induction files as [|[fn text] files IH]; intros idx; [reflexivity|].
  cbn [forM_ until_empty forallb]. unfold bind, has_tokens.
  cbn [fst snd]. rewrite add_doc_eq.
  destruct (tokens text) eqn:E; cbn [truthy andb fold_left fst snd].
  - rewrite add_doc_eq. cbn [fst]. reflexivity.
  - rewrite IH, add_doc_eq. cbn [fst]. reflexivity.
Qed.

Lemma until_empty_all files :
  forallb has_tokens files = true -> until_empty files = files.
Proof.
  induction files as [|ft files IH]; simpl; [reflexivity|].
  destruct (has_tokens ft); simpl; [|discriminate].
  intros H. rewrite IH by exact H. reflexivity.
Qed.

(** X14.  [Index.__init__] builds the index of the files of the
    directory exactly when each of them yields a token.  Otherwise it
    raises [ValueError] at the first file that yields none, and the files
    after that one are not read. *)
Theorem Index_init_builds files :
  Index_init files
  = (build (until_empty files),
     if forallb has_tokens files then Ok tt else Raise ValueError)
  /\ (forallb has_tokens files = true -> until_empty files = files)
  /\ (forallb has_tokens files = true <->
      forall ft, In ft files -> tokens (snd ft) <> []).
Proof.
  split; [apply forM_add_doc | split; [apply until_empty_all|]].
  rewrite forallb_forall. unfold has_tokens.
  split; intros H ft I; specialize (H ft I);
    destruct (tokens (snd ft)); simpl in *; congruence.
Qed.

(** ** The persistence writer *)

Lemma no_tokens_flat_map files :
  existsb has_tokens files = false ->
  flat_map (fun ft => tokens (snd ft)) files = [].
Proof.
  induction files as [|ft files IH]; simpl; [reflexivity|].
  intros H. apply orb_false_iff in H. destruct H as [H1 H2].
  rewrite IH by exact H2. unfold has_tokens in H1.
  destruct (tokens (snd ft)); [reflexivity | discriminate].
Qed.

(** X15.  [save] on a built index always writes [documents.txt] and
    opens [index.dat], which stays empty.  It completes, writing an empty
    [directory.txt], exactly when no file yielded a token; as soon as one
    did it raises [AttributeError] and [directory.txt] is not written. *)
Theorem save_of_built_index files :
  save (build files)
  = ({| documents_file := Some (documents_txt (documents (build files)));
        index_file := Some [];
        directory_file :=
          if existsb has_tokens files then None else Some "" |},
     if existsb has_tokens files then Raise AttributeError else Ok tt).
Proof.
  pose proof (keys_build_from files empty_index) as K. fold (build files) in K.
  simpl in K.
  destruct (existsb has_tokens files) eqn:X.
  - apply existsb_exists in X. destruct X as (ft & I & T).
    unfold has_tokens in T. destruct (tokens (snd ft)) as [|w ws] eqn:E;
      [discriminate|].
    assert (M : In w (Dict.keys (terms (build files)))).
    { rewrite K. apply fold_see_word_spec. right. apply in_flat_map.
      exists ft. split; [exact I|]. rewrite E. left; reflexivity. }
    pose proof (build_nonempty files) as F.
    destruct (terms (build files)) as [|[word [|loc locs]] rest] eqn:T';
      [destruct M | |].
    + inversion F; subst. simpl in *. congruence.
    + eapply save_first_posting; eauto.
  - rewrite (no_tokens_flat_map files X) in K. simpl in K.
    apply map_eq_nil in K. unfold save. rewrite K. reflexivity.
Qed.

Lemma replace_from_chars old s : forall skip c,
  In c (Text.chars (Text.replace_from old "" skip s)) -> In c (Text.chars s).
Proof.
  induction s as [|a s IH]; intros skip c; [simpl; tauto|].
  cbn [Text.replace_from]. destruct skip as [|k].
  - destruct (prefix old (String a s)).
    + intros H. right. eapply IH. exact H.
    + intros [<-|H]; [left; reflexivity | right; eapply IH; exact H].
  - intros H. right. eapply IH. exact H.
Qed.

(** X16.  [save] puts no line break of its own into [documents.txt]: on
    a built index the file holds one only if a filename does.  The records
    of several documents therefore share one line. *)
Theorem documents_txt_line_breaks files :
  (forall ft, In ft files -> ~ In newline (Text.chars (fst ft))) ->
  documents_file (fst (save (build files)))
  = Some (documents_txt (documents (build files)))
  /\ ~ In newline (Text.chars (documents_txt (documents (build files)))).
Proof.
  intros H. split.
  - unfold save. destruct (write_terms 0 _) as [[directory dat] [u|e]];
      reflexivity.
  - intros I. apply documents_txt_chars in I.
    destruct I as [I|[I|(d & D & I)]]; try discriminate.
    apply In_nth_error in D. destruct D as [i D].
    rewrite documents_build, nth_documents_from in D.
    destruct (nth_error files i) as [ft|] eqn:N; [|discriminate].
    injection D as <-. apply nth_error_In in N. simpl in I.
    apply (H ft N). destruct I as [I|I]; [|exact I].
    eapply replace_from_chars. exact I.
Qed.

Lemma documents_txt_line_breaks_witness :
  (forall ft, In ft two_files -> ~ In newline (Text.chars (fst ft)))
  /\ documents_file (fst (save (build two_files)))
     = Some (documents_txt (documents (build two_files)))
  /\ ~ In newline (Text.chars (documents_txt (documents (build two_files)))).
Proof.
  assert (H : forall ft, In ft two_files ->
                         ~ In newline (Text.chars (fst ft))).
  { intros ft [<-|[<-|[]]] I; vm_compute in I;
      repeat (destruct I as [I|I]; [discriminate|]); exact I. }
  split; [exact H|].
  exact (documents_txt_line_breaks two_files H).
Defined.

(** ** The invariant of the index *)

Lemma wf_loc_more idx idx' loc extra :
  documents idx' = documents idx ++ extra ->
  wf_loc idx loc -> wf_loc idx' loc.
Proof.
  intros E (d & N & B). exists d. split; [|exact B].
  rewrite E, nth_error_app1; [exact N|].
  apply nth_error_Some. congruence.
Qed.

Lemma wf_added filename text idx :
  wf_index idx -> wf_index (added filename text idx).
Proof.
  intros W term. rewrite postings_added. apply Forall_app. split.
  - eapply Forall_impl; [|apply W]. intros loc.
    apply (wf_loc_more idx _ loc _ (documents_added filename text idx)).
  - unfold posting_of.
    destruct (positions term 0 (tokens text)) as [|p ps] eqn:E;
      constructor; [|constructor].
    exists (document_of (List.length (documents idx)) (filename, text)).
    split.
    + rewrite documents_added. cbn [document].
      rewrite nth_error_app2, Nat.sub_diag by lia. reflexivity.
    + cbn [offsets]. rewrite <- E, positions_length. cbn [max_tf document_of snd].
      split; [|apply occurrences_le_max].
      apply occurrences_pos.
      destruct (in_dec string_dec term (tokens text)) as [I|I]; [exact I|].
      apply (proj2 (positions_nil term 0 _)) in I. congruence.
Qed.

(** X17.  [add_doc] keeps the index well formed, whether it returns or
    raises: every posting refers to a stored document, is non-empty and
    is no longer than that document's [max_tf].  On a well-formed index
    [tf] is defined for every posting and lies in (0, 100], and [search]
    returns for every query and limit, so neither divides by zero. *)
Theorem well_formed_kept filename text query limit idx :
  wf_index idx ->
  wf_index (fst (add_doc filename text idx))
  /\ (exists res, search query limit idx = (idx, Ok res))
  /\ forall term loc,
       In loc (postings idx term) ->
       exists v, tf loc idx = (idx, Ok v) /\ (0 < v <= 100)%R.
Proof.
  intros W. split; [|split].
  - rewrite fst_add_doc. apply wf_added, W.
  - eexists. apply search_eq, W.
  - intros term loc I. specialize (W term). rewrite Forall_forall in W.
    destruct (W loc I) as (d & N & B).
    exists (tf_val idx loc). split.
    + apply (tf_eq idx loc d N). lia.
    + unfold tf_val. rewrite N. apply (ratio_range _ _ B).
Qed.

Lemma well_formed_kept_witness :
  wf_index (build one_file)
  /\ wf_index (fst (add_doc "b.txt" "cat sat cat" (build one_file)))
  /\ (exists res,
        search "cat" 10 (build one_file) = (build one_file, Ok res))
  /\ forall term loc,
       In loc (postings (build one_file) term) ->
       exists v, tf loc (build one_file) = (build one_file, Ok v)
                 /\ (0 < v <= 100)%R.
Proof.
  assert (H : wf_index (build one_file)).
  { intros term. unfold postings.
    change (terms (build one_file)) with [("cat", [mkLoc 0 [0]])].
    cbn [Dict.get]. destruct (String.eqb term "cat"); constructor;
      [|constructor].
    exists (mkDocument 0 "a" "a.txt" 1). split; [reflexivity | simpl; lia]. }
  split; [exact H|].
  exact (well_formed_kept "b.txt" "cat sat cat" "cat" 10 (build one_file) H).
Defined.

(** ** Ranking *)

(** X18.  On a built index raising the limit only appends results: the
    results for limit [k] are the first [k] of the results for any limit
    [k + j]. *)
Theorem search_limit_prefix files query (k j : nat) :
  exists res res',
    search query (Z.of_nat k) (build files) = (build files, Ok res)
    /\ search query (Z.of_nat (k + j)) (build files) = (build files, Ok res')
    /\ res = firstn k res'.
Proof.
  pose proof (wf_build files) as W.
  exists (firstn k (ranked (build files) query)),
         (firstn (k + j) (ranked (build files) query)).
  split; [|split].
  - rewrite (search_eq _ query _ W), slice_to_of_nat. reflexivity.
  - rewrite (search_eq _ query _ W), slice_to_of_nat. reflexivity.
  - rewrite firstn_firstn. f_equal. lia.
Qed.

Lemma fold_see_fresh l : forall acc,
  NoDup (acc ++ l) -> fold_left see l acc = acc ++ l.
Proof.
  induction l as [|d l IH]; simpl; intros acc ND; [symmetry; apply app_nil_r|].
  assert (N : ~ In d acc).
  { intros I. apply NoDup_remove_2 in ND. apply ND.
    apply in_or_app. left; exact I. }
  unfold see at 2. destruct (existsb (Nat.eqb d) acc) eqn:E.
  - apply existsb_eqb_In in E. contradiction.
  - rewrite IH; rewrite <- app_assoc; [reflexivity | exact ND].
Qed.

Lemma sort_desc_same_score c l :
  Forall (fun r => score r = c) l -> sort_desc l = l.
Proof.
  induction 1 as [|x l E F IH]; simpl; [reflexivity|].
  rewrite IH. destruct F as [|y l Ey F]; simpl; [reflexivity|].
  destruct (Rlt_dec (score x) (score y)) as [L|L]; [|reflexivity].
  rewrite E, Ey in L. exfalso. lra.
Qed.

Lemma postings_from_everywhere t files : forall i,
  Forall (fun ft => In t (tokens (snd ft))) files ->
  map document (postings_from t i files) = seq i (List.length files).
Proof.
  induction files as [|ft files IH]; simpl; intros i F; [reflexivity|].
  inversion F as [|? ? I F']; subst. unfold posting_of.
  destruct (positions t 0 (tokens (snd ft))) eqn:E.
  - apply positions_nil in E. contradiction.
  - simpl. rewrite IH by exact F'. reflexivity.
Qed.

Lemma items_of_keys (l : list (nat * R)) c :
  (forall d s, In (d, s) l -> s = c) ->
  l = map (fun d => (d, c)) (Dict.keys l).
Proof.
  induction l as [|[d s] l IH]; simpl; intros H; [reflexivity|].
  rewrite (H d s) by (left; reflexivity). f_equal.
  apply IH. intros d' s' I. apply (H d' s'). right; exact I.
Qed.

(** X19.  A term that every document holds has [idf = 0]: on a built
    index a query that yields only this term returns all documents, each
    with score 0, in ingestion order. *)
Theorem search_ubiquitous_term files query t :
  tokens query = [t] ->
  Forall (fun ft => In t (tokens (snd ft))) files ->
  search query (Z.of_nat (List.length files)) (build files)
  = (build files,
     Ok (map (fun i => mkResult i 0%R) (seq 0 (List.length files)))).
Proof.
  intros Q F.
  pose proof (wf_build files) as W.
  rewrite (search_eq _ query _ W), slice_to_of_nat.
  assert (P : map document (postings (build files) t)
              = seq 0 (List.length files)).
  { rewrite postings_build. apply postings_from_everywhere, F. }
  assert (K : Dict.keys (file_scores_of (build files) (tokens query))
              = seq 0 (List.length files)).
  { rewrite keys_file_scores, Q. unfold visited. simpl.
    rewrite app_nil_r, P. unfold first_seen.
    apply (fold_see_fresh _ []). simpl. apply seq_NoDup. }
  assert (Z : forall d s,
             In (d, s) (file_scores_of (build files) (tokens query)) ->
             s = 0%R).
  { intros d s I.
    destruct files as [|ft files'].
    - apply map_eq_nil in K. rewrite K in I. destruct I.
    - apply In_file_scores in I. rewrite I, Q.
      assert (G : idf_val (build (ft :: files')) t = 0%R).
      { unfold idf_val.
        rewrite <- (length_map document (postings (build (ft :: files')) t)), P.
        rewrite length_seq, documents_build, documents_from_length.
        apply idf_all. simpl. discriminate. }
      unfold total_gain, gain. simpl. rewrite G.
      induction (filter _ _) as [|loc l IHl]; simpl; [lra|]. lra. }
  unfold ranked.
  rewrite (items_of_keys _ 0%R Z), K, map_map. simpl.
  rewrite (sort_desc_same_score 0%R).
  - apply f_equal. apply f_equal. apply firstn_all2.
    rewrite length_map, length_seq. lia.
  - apply Forall_forall. intros r I. apply in_map_iff in I.
    destruct I as (i & <- & _). reflexivity.
Qed.

Lemma search_ubiquitous_term_witness :
  (tokens "the SAT" = ["sat"]
   /\ Forall (fun ft => In "sat" (tokens (snd ft))) scenario_files)
  /\ search "the SAT" (Z.of_nat (List.length scenario_files))
       (build scenario_files)
     = (build scenario_files,
        Ok (map (fun i => mkResult i 0%R)
                (seq 0 (List.length scenario_files)))).
Proof.
  assert (H1 : tokens "the SAT" = ["sat"]) by reflexivity.
  assert (H2 : Forall (fun ft => In "sat" (tokens (snd ft))) scenario_files).
  { repeat constructor; vm_compute; tauto. }
  split; [split; assumption|].
  exact (search_ubiquitous_term scenario_files "the SAT" "sat" H1 H2).
Defined.

(* ------------------------------------------------------------------ *)
(** * Search in every arithmetic *)

Section AnyArithmetic.
Variable A : Fl.Arith.

Lemma fl_tf_eq idx loc d :
  nth_error (documents idx) (document loc) = Some d ->
  max_tf d <> 0 ->
  Fl.tf A loc idx = (idx, Ok (Fl.tf_val A idx loc)).
Proof.
  intros N Z. unfold Fl.tf, bind, max_tf_of, lift, Fl.int_div, Fl.tf_val.
  rewrite N. apply Nat.eqb_neq in Z. rewrite Z. reflexivity.
Qed.

Lemma fl_idf_eq term idx :
  postings idx term <> [] -> documents idx <> [] ->
  Fl.idf A term idx = (idx, Ok (Some (Fl.idf_val A idx term))).
Proof.
  intros P D. unfold Fl.idf, bind. rewrite lookup_eq.
  unfold Fl.idf_val.
  destruct (postings idx term) eqn:E; [congruence|].
  unfold truthy, gets, lift, Fl.int_div, ret. cbv beta iota.
  destruct (documents idx); [congruence|]. reflexivity.
Qed.

Lemma fl_score_loc_eq idx word fs loc :
  wf_loc idx loc ->
  Fl.score_loc A (Some (Fl.idf_val A idx word)) fs loc idx =
  (idx, Ok (Fl.add_loc A idx word fs loc)).
Proof.
  intros (d & N & B). unfold Fl.score_loc, bind.
  rewrite (fl_tf_eq idx loc d N) by lia. reflexivity.
Qed.

Lemma fl_foldM_score_loc idx word locs : forall fs,
  Forall (wf_loc idx) locs ->
  foldM (Fl.score_loc A (Some (Fl.idf_val A idx word))) locs fs idx =
  (idx, Ok (fold_left (Fl.add_loc A idx word) locs fs)).
Proof.
  induction locs as [|loc locs IH]; simpl; intros fs F; [reflexivity|].
  inversion F; subst. unfold bind. rewrite fl_score_loc_eq by assumption.
  apply IH; assumption.
Qed.

Lemma fl_score_word_eq idx fs word :
  wf_index idx ->
  Fl.score_word A fs word idx = (idx, Ok (Fl.add_word A idx fs word)).
Proof.
  intros W. unfold Fl.score_word, bind, Fl.add_word. rewrite lookup_eq.
  specialize (W word).
  destruct (postings idx word) as [|loc locs] eqn:E; [reflexivity|].
  unfold truthy. cbv beta iota.
  rewrite fl_idf_eq.
  - apply fl_foldM_score_loc; assumption.
  - rewrite E; discriminate.
  - inversion W; subst. eapply wf_documents; eauto.
Qed.

Lemma fl_foldM_score_word idx ws : forall fs,
  wf_index idx ->
  foldM (Fl.score_word A) ws fs idx
  = (idx, Ok (fold_left (Fl.add_word A idx) ws fs)).
Proof.
  induction ws as [|w ws IH]; simpl; intros fs W; [reflexivity|].
  unfold bind. rewrite fl_score_word_eq by assumption. apply IH, W.
Qed.

(** On a well-formed index [search] returns the ranked matches cut at
    [limit], whatever the arithmetic. *)
Lemma fl_search_eq idx query limit :
  wf_index idx ->
  Fl.search A query limit idx
  = (idx, Ok (slice_to (Fl.ranked A idx query) limit)).
Proof.
  intros W. unfold Fl.search, bind. rewrite fl_foldM_score_word by assumption.
  reflexivity.
Qed.

(** *** The sort *)

Lemma fl_insert_perm x l : Permutation (Fl.insert_desc A x l) (x :: l).
Proof.
  induction l as [|y l IH]; simpl; [reflexivity|].
  destruct (Fl.lt A (Fl.score A x) (Fl.score A y)); [|reflexivity].
  rewrite IH. apply perm_swap.
Qed.

Lemma fl_sort_perm l : Permutation (Fl.sort_desc A l) l.
Proof.
  induction l as [|x l IH]; simpl; [reflexivity|].
  rewrite fl_insert_perm, IH; reflexivity.
Qed.





(** *** The score dictionary *)

Lemma fl_keys_add_loc idx word fs loc :
  Dict.keys (Fl.add_loc A idx word fs loc) = see (Dict.keys fs) (document loc).
Proof.
  unfold Fl.add_loc, see. rewrite (keys_upsert Nat.eqb).
  destruct (Dict.get Nat.eqb (document loc) fs) eqn:G.
  - assert (I : In (document loc) (Dict.keys fs)).
    { apply (get_Some_In Nat.eqb Nat.eqb_eq) in G.
      change (document loc) with (fst (document loc, n)). apply in_map, G. }
    apply existsb_eqb_In in I. rewrite I; reflexivity.
  - apply (get_None Nat.eqb Nat.eqb_eq) in G.
    destruct (existsb _ _) eqn:X; [|reflexivity].
    apply existsb_eqb_In in X; contradiction.
Qed.

Lemma fl_keys_add_word idx word : forall fs,
  Dict.keys (Fl.add_word A idx fs word) =
  fold_left see (map document (postings idx word)) (Dict.keys fs).
Proof.
  unfold Fl.add_word. induction (postings idx word) as [|loc locs IH]; simpl;
    intros fs; [reflexivity|].
  rewrite IH, fl_keys_add_loc; reflexivity.
Qed.

Lemma fl_keys_fold idx ws : forall fs,
  Dict.keys (fold_left (Fl.add_word A idx) ws fs) =
  fold_left see (visited idx ws) (Dict.keys fs).
Proof.
  unfold visited. induction ws as [|w ws IH]; simpl; intros fs; [reflexivity|].
  rewrite IH, fl_keys_add_word, fold_left_app; reflexivity.
Qed.

(** The keys of [file_scores] are the visited documents, each at the
    place of its first visit. *)
Lemma fl_keys_file_scores idx ws :
  Dict.keys (Fl.file_scores_of A idx ws) = first_seen (visited idx ws).
Proof. apply fl_keys_fold. Qed.

Lemma fl_value_add_loc idx word fs loc d :
  Fl.value A (Fl.add_loc A idx word fs loc) d =
  if document loc =? d
  then Fl.add A (Fl.value A fs d)
         (Fl.mul A (Fl.tf_val A idx loc) (Fl.idf_val A idx word))
  else Fl.value A fs d.
Proof.
  unfold Fl.value, Fl.add_loc. rewrite (get_upsert Nat.eqb Nat.eqb_eq).
  rewrite (Nat.eqb_sym d). destruct (Nat.eqb_spec (document loc) d) as [->|N];
    reflexivity.
Qed.

Lemma fl_value_add_word idx word d : forall fs,
  Fl.value A (Fl.add_word A idx fs word) d =
  fold_left (Fl.add A) (Fl.addend A idx d word) (Fl.value A fs d).
Proof.
  unfold Fl.add_word, Fl.addend.
  induction (postings idx word) as [|loc locs IH]; simpl; intros fs;
    [reflexivity|].
  rewrite IH, fl_value_add_loc.
  destruct (document loc =? d); reflexivity.
Qed.

Lemma fl_total_from (cs : list (string * Fl.num A)) : forall acc,
  fold_left (fun acc c => Fl.add A acc (snd c)) cs acc
  = fold_left (Fl.add A) (map snd cs) acc.
Proof. induction cs as [|c cs IH]; simpl; intros acc; [reflexivity | apply IH]. Qed.

Lemma fl_value_fold idx d ws : forall fs,
  Fl.value A (fold_left (Fl.add_word A idx) ws fs) d =
  fold_left (fun acc c => Fl.add A acc (snd c))
    (Fl.contributions A idx d ws) (Fl.value A fs d).
Proof.
  unfold Fl.contributions. induction ws as [|w ws IH]; simpl; intros fs;
    [reflexivity|].
  rewrite IH, fl_value_add_word, fold_left_app. f_equal.
  rewrite fl_total_from, map_map. simpl. rewrite map_id. reflexivity.
Qed.

(** The score of a document is the result of the additions of its
    contributions, made in the order of the loops. *)
Lemma fl_In_file_scores idx ws d s :
  In (d, s) (Fl.file_scores_of A idx ws) ->
  s = Fl.total A (Fl.contributions A idx d ws).
Proof.
  intros I. unfold Fl.total.
  change (Fl.zero A) with (Fl.value A [] d).
  rewrite <- (fl_value_fold idx d ws []).
  fold (Fl.file_scores_of A idx ws). unfold Fl.value.
  rewrite (In_get Nat.eqb Nat.eqb_eq d s); [reflexivity| |exact I].
  rewrite fl_keys_file_scores. apply NoDup_first_seen.
Qed.

Lemma fl_In_ranked idx query r :
  In r (Fl.ranked A idx query) ->
  In (Fl.result_document A r, Fl.score A r)
     (Fl.file_scores_of A idx (tokens query)).
Proof.
  unfold Fl.ranked. intros I.
  apply (Permutation_in _ (fl_sort_perm _)) in I.
  apply in_map_iff in I. destruct I as ([d s] & <- & I). exact I.
Qed.

Lemma fl_ranked_documents idx query :
  Permutation (map (Fl.result_document A) (Fl.ranked A idx query))
              (first_seen (visited idx (tokens query))).
Proof.
  unfold Fl.ranked. rewrite fl_sort_perm, map_map; simpl.
  rewrite <- fl_keys_file_scores. reflexivity.
Qed.

Lemma fl_ranked_scores idx query :
  Forall (fun r => Fl.score A r
                   = Fl.total A (Fl.contributions A idx
                                   (Fl.result_document A r) (tokens query)))
         (Fl.ranked A idx query).
Proof.
  apply Forall_forall. intros r I. apply fl_In_ranked in I.
  apply fl_In_file_scores in I. exact I.
Qed.

Lemma fl_ranked_length files query :
  List.length (Fl.ranked A (build files) query)
  <= List.length (documents (build files)).
Proof.
  pose proof (fl_ranked_documents (build files) query) as P.
  rewrite <- (length_map (Fl.result_document A)).
  rewrite (Permutation_length P).
  apply Nat.le_trans
    with (List.length (seq 0 (List.length (documents (build files)))));
    [|rewrite length_seq; lia].
  apply NoDup_incl_length; [apply NoDup_first_seen|].
  intros d I. apply first_seen_In, visited_In in I.
  destruct I as (w & loc & _ & L & <-).
  pose proof (wf_build files w) as W. rewrite Forall_forall in W.
  destruct (W loc L) as (doc & N & _).
  apply in_seq. split; [lia|]. simpl. apply nth_error_Some. congruence.
Qed.


(** One posting per term and document: an occurrence of a query word
    adds [tf * idf] once to the score of a document that holds the word,
    and nothing to the score of any other document. *)
Lemma fl_addend_build files t d :
  Fl.addend A (build files) d t =
  match nth_error files d with
  | Some ft =>
      match positions t 0 (tokens (snd ft)) with
      | [] => []
      | ps => [Fl.mul A (Fl.tf_val A (build files) (mkLoc d ps))
                        (Fl.idf_val A (build files) t)]
      end
  | None => []
  end.
Proof.
  unfold Fl.addend. rewrite postings_build.
  pose proof (filter_postings_from t files 0 d) as F.
  cbn [Nat.add] in F. rewrite F.
  destruct (nth_error files d) as [ft|]; [|reflexivity].
  unfold posting_of. destruct (positions t 0 (tokens (snd ft))); reflexivity.
Qed.

Lemma fl_contributions_of t x idx d ws :
  Fl.addend A idx d t = [x] ->
  filter (fun c => String.eqb t (fst c)) (Fl.contributions A idx d ws)
  = repeat (t, x) (occurrences t ws).
Proof.
  intros E. unfold Fl.contributions, occurrences.
  induction ws as [|w ws IH]; simpl; [reflexivity|].
  rewrite filter_app, IH.
  destruct (string_dec w t) as [->|N].
  - rewrite E. simpl. rewrite String.eqb_refl. reflexivity.
  - replace (filter _ (map (pair w) (Fl.addend A idx d w))) with
      (@nil (string * Fl.num A)); [reflexivity|].
    symmetry. apply filter_none. intros c I.
    apply in_map_iff in I. destruct I as (y & <- & _). simpl.
    apply String.eqb_neq. congruence.
Qed.


(** C4 (amended).  In every arithmetic and on every built index: with
    [limit = k >= 0], [search] returns the first [k] of the ranked
    matches, so at most [k] of them, all of them when [k] is not below
    their number, and none for [k = 0]; with a negative limit [-p] it
    raises nothing and returns the ranked matches without the last [p]. *)
Theorem search_limit_slices files query (k : nat) (p : positive) :
  let idx := build files in
  let all := Fl.ranked A idx query in
  Fl.search A query (Z.of_nat k) idx = (idx, Ok (firstn k all))
  /\ List.length (firstn k all) <= k
  /\ Fl.search A query (Z.of_nat (List.length all + k)) idx = (idx, Ok all)
  /\ Fl.search A query (Z.of_nat (List.length (documents idx))) idx
     = (idx, Ok all)
  /\ Fl.search A query 0 idx = (idx, Ok [])
  /\ Fl.search A query (Z.neg p) idx =
       (idx, Ok (firstn (List.length all - Pos.to_nat p) all)).
Proof.
  intros idx all.
  pose proof (wf_build files) as W. fold idx in W.
  split; [|split; [|split; [|split; [|split]]]].
  - rewrite (fl_search_eq idx query _ W), slice_to_of_nat; reflexivity.
  - rewrite length_firstn; lia.
  - rewrite (fl_search_eq idx query _ W), slice_to_of_nat. fold all.
    rewrite firstn_all2 by lia; reflexivity.
  - rewrite (fl_search_eq idx query _ W), slice_to_of_nat. fold all.
    rewrite firstn_all2; [reflexivity|]. apply fl_ranked_length.
  - rewrite (fl_search_eq idx query _ W); reflexivity.
  - rewrite (fl_search_eq idx query _ W), slice_to_neg_pos; reflexivity.
Qed.

(** C10.  In every arithmetic and on every built index, [search] with a
    limit that does not cut returns every document that holds a query
    token, and the score of each is the result of the additions of its
    contributions, made from [float()] in the order of the loops.  Among
    the contributions to a document that holds [t], those of [t] are
    [tf * idf] of its posting, once for each of the [k] times that the
    query yields [t]: the product is added [k] times. *)
Theorem query_term_added_per_occurrence files query t :
  let idx := build files in
  let ws := tokens query in
  exists res,
    Fl.search A query (Z.of_nat (List.length (documents idx))) idx
    = (idx, Ok res)
    /\ (forall d, In d (map (Fl.result_document A) res) <->
          exists w loc, In w ws /\ In loc (postings idx w)
                        /\ document loc = d)
    /\ NoDup (map (Fl.result_document A) res)
    /\ Forall (fun r => Fl.score A r
                        = Fl.total A (Fl.contributions A idx
                                        (Fl.result_document A r) ws)) res
    /\ Forall
         (fun loc =>
            (In t ws -> In (document loc) (map (Fl.result_document A) res))
            /\ Fl.tf A loc idx = (idx, Ok (Fl.tf_val A idx loc))
            /\ Fl.idf A t idx = (idx, Ok (Some (Fl.idf_val A idx t)))
            /\ filter (fun c => String.eqb t (fst c))
                      (Fl.contributions A idx (document loc) ws)
               = repeat (t, Fl.mul A (Fl.tf_val A idx loc)
                                     (Fl.idf_val A idx t))
                        (occurrences t ws))
         (postings idx t).
Proof.
  intros idx ws.
  pose proof (wf_build files) as W. fold idx in W.
  pose proof (fl_ranked_documents idx query) as P.
  assert (D : forall d, In d (map (Fl.result_document A)
                                 (Fl.ranked A idx query)) <->
                        exists w loc, In w ws /\ In loc (postings idx w)
                                      /\ document loc = d).
  { intros d.
    rewrite <- visited_In, <- (first_seen_In (visited idx ws)).
    split; apply Permutation_in; [|symmetry]; exact P. }
  exists (Fl.ranked A idx query).
  split; [|split; [exact D | split; [|split]]].
  - rewrite (fl_search_eq idx query _ W), slice_to_of_nat.
    rewrite firstn_all2; [reflexivity|]. apply fl_ranked_length.
  - apply (Permutation_NoDup (Permutation_sym P)), NoDup_first_seen.
  - apply fl_ranked_scores.
  - apply Forall_forall. intros loc I.
    pose proof (W t) as Wt. rewrite Forall_forall in Wt.
    pose proof (Wt loc I) as WL.
    split; [|split; [|split]].
    + intros T. apply D. exists t, loc. auto.
    + destruct WL as (d & N & B). apply (fl_tf_eq idx loc d N). lia.
    + apply fl_idf_eq.
      * intros E. rewrite E in I. destruct I.
      * eapply wf_documents; eauto.
    + apply fl_contributions_of. unfold idx in *.
      rewrite fl_addend_build. rewrite postings_build in I.
      apply In_postings_from in I. destruct I as (j & ft & N & T & ->).
      cbn [document Nat.add]. rewrite N.
      destruct (positions t 0 (tokens (snd ft))) eqn:E; [|reflexivity].
      apply positions_nil in E. contradiction.
Qed.

End AnyArithmetic.

(** *** The arithmetic of the real numbers *)


Lemma real_insert x l :
  map to_fl (insert_desc x l) = Fl.insert_desc Fl.real (to_fl x) (map to_fl l).
Proof.
  induction l as [|y l IH]; simpl; [reflexivity|].
  destruct (Rlt_dec (score x) (score y)); simpl; [rewrite IH|]; reflexivity.
Qed.

Lemma real_sort l :
  map to_fl (sort_desc l) = Fl.sort_desc Fl.real (map to_fl l).
Proof.
  induction l as [|x l IH]; simpl; [reflexivity|].
  rewrite real_insert, IH. reflexivity.
Qed.

Lemma slice_to_map {X Y} (f : X -> Y) l k :
  slice_to (map f l) k = map f (slice_to l k).
Proof.
  unfold slice_to. rewrite length_map.
  destruct (0 <=? k)%Z; apply firstn_map.
Qed.

(** [search] is the search in the arithmetic of the real numbers. *)
Lemma real_search query limit idx :
  Fl.search Fl.real query limit idx
  = (fst (search query limit idx),
     match snd (search query limit idx) with
     | Ok res => Ok (map to_fl res)
     | Raise e => Raise e
     end).
Proof.
  unfold Fl.search, search, bind.
  change (foldM (Fl.score_word Fl.real) (tokens query) [] idx)
    with (foldM score_word (tokens query) [] idx).
  destruct (foldM score_word (tokens query) [] idx) as [s [fs|e]];
    [|reflexivity].
  unfold ret. cbn [fst snd]. do 2 f_equal.
  rewrite <- slice_to_map, real_sort, map_map. reflexivity.
Qed.


(* ------------------------------------------------------------------ *)
(** * The tokenizer on Unicode text *)

Section AnyTables.
Variable T : Unicode.Tables.

Lemma u_split_from_chars (P : Unicode.char -> Prop) s :
  forall cur w,
    (forall c, In c cur -> P c) ->
    (forall c, In c s -> Unicode.isspace T c = false -> P c) ->
    In w (Unicode.split_from T cur s) ->
    forall c, In c w -> P c.
Proof.
  induction s as [|a s IH]; simpl; intros cur w Hcur Hs Hw c Hc.
  - destruct cur; simpl in Hw; [tauto|].
    destruct Hw as [<-|[]]; auto.
  - destruct (Unicode.isspace T a) eqn:Ea.
    + assert (Hrest : In w (Unicode.split_from T [] s) -> P c).
      { intros H; eapply (IH [] w); eauto; simpl; tauto. }
      destruct cur; [auto|].
      destruct Hw as [<-|Hw]; auto.
    + apply (IH (cur ++ [a]) w); auto.
      intros x Hx. apply in_app_or in Hx.
      destruct Hx as [Hx|[<-|[]]]; auto.
Qed.

Lemma u_lower_from_chars s : forall before c',
  In c' (Unicode.lower_from T before s) ->
  exists b a c, In c' (Unicode.lower_at T b a c).
Proof.
  induction s as [|x s IH]; simpl; intros before c' H; [destruct H|].
  apply in_app_or in H. destruct H as [H|H]; eauto.
Qed.

Lemma u_lower_at_fixed before after c :
  c <> Unicode.capital_sigma -> Unicode.lower_full T c = [c] ->
  Unicode.lower_at T before after c = [c].
Proof.
  intros N E. unfold Unicode.lower_at.
  apply N.eqb_neq in N. rewrite N. exact E.
Qed.

Lemma u_lower_from_fixed w : forall before,
  (forall c, In c w ->
             c <> Unicode.capital_sigma /\ Unicode.lower_full T c = [c]) ->
  Unicode.lower_from T before w = w.
Proof.
  induction w as [|c w IH]; simpl; intros before H; [reflexivity|].
  destruct (H c (or_introl eq_refl)) as [N E].
  rewrite (u_lower_at_fixed _ _ c N E), IH; [reflexivity|].
  intros x I. apply H. right; exact I.
Qed.

Lemma u_mem_In w ws : Unicode.mem w ws = true <-> In w ws.
Proof.
  unfold Unicode.mem. rewrite existsb_exists. split.
  - intros (x & I & E). destruct (list_eq_dec N.eq_dec w x);
      [subst; assumption | discriminate].
  - intros I. exists w. split; [assumption|].
    destruct (list_eq_dec N.eq_dec w w); [reflexivity | congruence].
Qed.

(** C5 (amended).  For every text, whatever code points it holds, every
    term that [tokens] yields is non-empty, is left unchanged by
    [str.lower], holds at least one alphabetic or digit character, holds
    no whitespace and is not a stop word.  A term can hold an upper-case
    character, but only one that [str.lower] leaves as it is. *)
Theorem tokens_terms_unicode text w :
  Unicode.lower_stable T ->
  In w (Unicode.tokens T text) ->
  w <> []
  /\ Unicode.lower T w = w
  /\ (exists c, In c w /\ (Unicode.isalpha T c = true
                           \/ Unicode.isdigit T c = true))
  /\ (forall c, In c w -> Unicode.isspace T c = false)
  /\ ~ In w (Unicode.STOP_WORDS T)
  /\ forall c, In c w -> Unicode.isupper T c = true ->
               forall before after, Unicode.lower_at T before after c = [c].
Proof.
  intros S Hw. unfold Unicode.tokens in Hw.
  apply filter_In in Hw. destruct Hw as (Hs & Hf).
  apply andb_true_iff in Hf. destruct Hf as (Ha & Hm).
  apply negb_true_iff in Hm.
  assert (F : forall c, In c w ->
                c <> Unicode.capital_sigma
                /\ Unicode.lower_full T c = [c]).
  { apply (u_split_from_chars _ (Unicode.lower T text) [] w);
      [simpl; tauto | | exact Hs].
    intros c I _. apply u_lower_from_chars in I.
    destruct I as (b & a & c0 & I). eapply S; eauto. }
  apply existsb_exists in Ha. destruct Ha as (c & Hc & Hal).
  split; [|split; [|split; [|split; [|split]]]].
  - intros ->. exact Hc.
  - apply u_lower_from_fixed, F.
  - exists c. split; [assumption | apply orb_true_iff; assumption].
  - apply (u_split_from_chars _ (Unicode.lower T text) [] w);
      [simpl; tauto | auto | exact Hs].
  - rewrite <- u_mem_In, Hm. discriminate.
  - intros x I _ before after. destruct (F x I) as [N E].
    apply u_lower_at_fixed; assumption.
Qed.

End AnyTables.

Lemma sample_lower_stable : Unicode.lower_stable Unicode.sample.
Proof.
  intros before after c c' I. unfold Unicode.lower_at in I.
  assert (Small : forall x, (x < 256)%N ->
            x <> Unicode.capital_sigma
            /\ Unicode.lower_full Unicode.sample x
               = [N_of_ascii (Text.lower_char (ascii_of_N x))]).
  { intros x L. split.
    - unfold Unicode.capital_sigma. lia.
    - simpl. apply N.ltb_lt in L. rewrite L. reflexivity. }
  assert (Large : forall x, (256 <= x)%N ->
            Unicode.lower_full Unicode.sample x = [x]).
  { intros x L. simpl. apply N.ltb_ge in L. rewrite L. reflexivity. }
  destruct (c =? Unicode.capital_sigma)%N eqn:E.
  - simpl in I. destruct I as [<-|[]]. split; [discriminate|].
    apply Large. unfold Unicode.small_sigma. lia.
  - apply N.eqb_neq in E. simpl in I.
    destruct (c <? 256)%N eqn:L.
    + destruct I as [<-|[]].
      pose proof (N_ascii_bounded (Text.lower_char (ascii_of_N c))) as B.
      destruct (Small _ B) as [N1 E1]. split; [exact N1|].
      rewrite E1, ascii_N_embedding, lower_char_idempotent. reflexivity.
    + destruct I as [<-|[]]. split; [exact E|].
      apply Large. apply N.ltb_ge in L. exact L.
Qed.

(** C5, as stated, fails.  The text that consists of U+2102, the
    double-struck capital C, yields that character as a term: it is
    alphabetic, [str.lower] leaves it as it is, and it is upper-case. *)
Lemma tokens_yield_upper_case :
  Unicode.tokens Unicode.sample [Unicode.double_struck_C]
  = [[Unicode.double_struck_C]]
  /\ Unicode.isupper Unicode.sample Unicode.double_struck_C = true
  /\ ~ (forall w c,
          In w (Unicode.tokens Unicode.sample [Unicode.double_struck_C]) ->
          In c w -> Unicode.isupper Unicode.sample c = false).
Proof.
  assert (E : Unicode.tokens Unicode.sample [Unicode.double_struck_C]
              = [[Unicode.double_struck_C]]) by (vm_compute; reflexivity).
  split; [exact E | split; [reflexivity|]].
  intros H.
  specialize (H [Unicode.double_struck_C] Unicode.double_struck_C).
  rewrite E in H. simpl in H.
  discriminate H; auto.
Qed.

Lemma tokens_terms_unicode_witness :
  (Unicode.lower_stable Unicode.sample
   /\ In (Unicode.codes "mat.")
         (Unicode.tokens Unicode.sample
            (Unicode.codes "The cat sat on   the Mat.")))
  /\ Unicode.codes "mat." <> []
  /\ Unicode.lower Unicode.sample (Unicode.codes "mat.")
     = Unicode.codes "mat."
  /\ (exists c, In c (Unicode.codes "mat.")
                /\ (Unicode.isalpha Unicode.sample c = true
                    \/ Unicode.isdigit Unicode.sample c = true))
  /\ (forall c, In c (Unicode.codes "mat.") ->
                Unicode.isspace Unicode.sample c = false)
  /\ ~ In (Unicode.codes "mat.") (Unicode.STOP_WORDS Unicode.sample)
  /\ forall c, In c (Unicode.codes "mat.") ->
               Unicode.isupper Unicode.sample c = true ->
               forall before after,
                 Unicode.lower_at Unicode.sample before after c = [c].
Proof.
  assert (H : In (Unicode.codes "mat.")
                 (Unicode.tokens Unicode.sample
                    (Unicode.codes "The cat sat on   the Mat.")))
    by (vm_compute; tauto).
  split; [split; [exact sample_lower_stable | exact H]|].
  exact (tokens_terms_unicode Unicode.sample _ _ sample_lower_stable H).
Defined.

(** *** Text of U+0000..U+00FF *)

Lemma sample_small a :
  (N_of_ascii a <? 256)%N = true /\ ascii_of_N (N_of_ascii a) = a.
Proof.
  split; [apply N.ltb_lt, N_ascii_bounded | apply ascii_N_embedding].
Qed.

Lemma codes_app s t :
  Unicode.codes (s ++ t) = Unicode.codes s ++ Unicode.codes t.
Proof. unfold Unicode.codes. rewrite chars_app. apply map_app. Qed.

Lemma codes_inj s t : Unicode.codes s = Unicode.codes t -> s = t.
Proof.
  unfold Unicode.codes. revert t.
  induction s as [|a s IH]; intros [|b t]; simpl; intros E;
    try discriminate; [reflexivity|].
  injection E as E1 E2.
  apply (f_equal ascii_of_N) in E1. rewrite !ascii_N_embedding in E1.
  subst b. f_equal. apply IH, E2.
Qed.

Lemma codes_lower s : forall before,
  Unicode.lower_from Unicode.sample before (Unicode.codes s)
  = Unicode.codes (Text.lower s).
Proof.
  induction s as [|a s IH]; intros before; [reflexivity|].
  change (Unicode.codes (String a s))
    with (N_of_ascii a :: Unicode.codes s).
  change (Unicode.codes (Text.lower (String a s)))
    with (N_of_ascii (Text.lower_char a) :: Unicode.codes (Text.lower s)).
  cbn [Unicode.lower_from]. rewrite IH.
  unfold Unicode.lower_at.
  destruct (sample_small a) as [L E].
  assert (N : (N_of_ascii a =? Unicode.capital_sigma)%N = false).
  { apply N.eqb_neq. apply N.ltb_lt in L. unfold Unicode.capital_sigma. lia. }
  rewrite N. cbn [Unicode.lower_full Unicode.sample]. rewrite L, E.
  reflexivity.
Qed.

Lemma codes_split s : forall cur,
  Unicode.split_from Unicode.sample (Unicode.codes cur) (Unicode.codes s)
  = map Unicode.codes (Text.split_from cur s).
Proof.
  induction s as [|a s IH]; intros cur.
  - destruct cur; reflexivity.
  - change (Unicode.codes (String a s))
      with (N_of_ascii a :: Unicode.codes s).
    cbn [Unicode.split_from Text.split_from].
    destruct (sample_small a) as [L E].
    cbn [Unicode.isspace Unicode.sample]. rewrite L, E. cbn [andb].
    destruct (Text.isspace a).
    + destruct cur as [|c cur].
      * apply (IH ""%string).
      * change (Unicode.codes (String c cur))
          with (N_of_ascii c :: Unicode.codes cur).
        cbn [map]. f_equal. apply (IH ""%string).
    + rewrite <- IH, codes_app. reflexivity.
Qed.

Lemma codes_any (p : ascii -> bool) (q : Unicode.char -> bool) w :
  (forall a, q (N_of_ascii a) = p a) ->
  existsb q (Unicode.codes w) = Text.any p w.
Proof.
  intros H. induction w as [|a w IH]; [reflexivity|].
  change (Unicode.codes (String a w))
    with (N_of_ascii a :: Unicode.codes w).
  simpl. rewrite H, IH. reflexivity.
Qed.

Lemma codes_mem w ws :
  Unicode.mem (Unicode.codes w) (map Unicode.codes ws) = Text.mem w ws.
Proof.
  unfold Unicode.mem, Text.mem. induction ws as [|x ws IH]; [reflexivity|].
  simpl. rewrite IH. f_equal.
  destruct (list_eq_dec N.eq_dec (Unicode.codes w) (Unicode.codes x)) as [E|E].
  - apply codes_inj in E. subst. symmetry. apply String.eqb_refl.
  - symmetry. apply String.eqb_neq. intros ->. apply E. reflexivity.
Qed.

Lemma filter_map_codes {X Y} (g : X -> Y) (f : Y -> bool) (h : X -> bool) l :
  (forall x, f (g x) = h x) ->
  filter f (map g l) = map g (filter h l).
Proof.
  intros H. induction l as [|x l IH]; simpl; [reflexivity|].
  rewrite H, IH. destruct (h x); reflexivity.
Qed.

(** On a text of U+0000..U+00FF the tokenizer with Python's tables is
    [tokens]. *)
Lemma tokens_codes text :
  Unicode.tokens Unicode.sample (Unicode.codes text)
  = map Unicode.codes (tokens text).
Proof.
  unfold Unicode.tokens, tokens, Unicode.lower, Unicode.split, Text.split.
  rewrite codes_lower.
  change (@nil Unicode.char) with (Unicode.codes ""%string).
  rewrite codes_split.
  apply filter_map_codes. intros w. f_equal.
  - apply codes_any. intros a.
    destruct (sample_small a) as [L E].
    cbn [Unicode.isalpha Unicode.isdigit Unicode.sample].
    rewrite L, E. cbn [andb].
    assert (N : (N_of_ascii a =? Unicode.double_struck_C)%N = false).
    { apply N.eqb_neq. apply N.ltb_lt in L.
      unfold Unicode.double_struck_C. lia. }
    rewrite N, orb_false_r. reflexivity.
  - f_equal. unfold Unicode.STOP_WORDS, STOP_WORDS, Unicode.split, Text.split.
    change (@nil Unicode.char) with (Unicode.codes ""%string).
    rewrite codes_split. apply codes_mem.
Qed.
